(** * Mindora quiz backend: validation, weighted scoring and tie-break

    A shallow embedding of [QuizService] (src/quiz/quiz.service.ts), of the
    parts of [UsersService] it calls, and of the submission DTO, followed by
    the properties of the scoring engine and of the single-attempt gate.

    Modelling conventions, and the domain on which they are the program.
    - JavaScript numbers are binary64.  Weights, points and scores are
      integers (the data model of the quiz) and are modelled in [Z], where
      [+] and [*] are exact; they are the program's [+] and [*] as long as
      every product and every running sum stays within the safe integers
      ([MAX_SAFE_INTEGER]).  A property that speaks about the value of a
      total or of a tie-break contribution carries that bound as a
      hypothesis ([boundedCatalog]).
    - Objects used as dictionaries ([ScoringMap], [ScoreBreakdown], the local
      [maxContributions]) are finite maps of their own properties.  A read
      [o[k]] of an absent key is [None]; in the program such a read reaches
      [Object.prototype] when [k] is one of its property names
      ([objectPrototypeKeys]).  A property that depends on such reads
      carries the hypothesis that no category id is one of these names
      ([plainCategories]).  The [Map] of questions and the [Set] of answered
      questions have no such reads.
    - Keys are enumerated in the order of the finite-map library, not in
      insertion order; the properties below are about lookups and about the
      returned winner, which the order of enumeration does not change
      ([foldl_addPoints_lookup], [cascadeWinner_unique]).
    - A string is the sequence of its UTF-8 bytes.  [sort()] compares UTF-16
      code units; the two orders agree on ASCII strings, and
      [plainCategories] asks for ASCII category ids.
    - [undefined] is [None].
    - A thrown exception is the left summand of a sum type.
    - Firestore collections are finite maps from document id to document;
      [nanoid()] and [new Date()] are inputs of the operation that calls
      them.  The Firestore client is the one of firebase.service.ts, created
      with its default settings: [set] refuses a document with a field whose
      value is [undefined]. *)

From Stdlib Require Import ZArith Lia.
From stdpp Require Import base option list gmap strings fin_maps sorting.

Local Open Scope Z_scope.

(** * The program *)

(** ** Data model (src/common/interfaces/quiz.interface.ts) *)

Module AnswerOption.
Record t := mk {
  id : string;
  text : string;
  scores : gmap string Z
}.
End AnswerOption.

Module Question.
Record t := mk {
  id : string;
  text : string;
  weight : Z;
  options : list AnswerOption.t;
  order : Z
}.
End Question.

Module UserAnswer.
Record t := mk {
  questionId : string;
  optionId : string
}.
End UserAnswer.

(** ** Exceptions

    [ValidationPipeException] is the [BadRequestException] that the global
    [ValidationPipe] throws; it carries the list of violated constraints. *)

Inductive ConstraintViolation :=
| ArrayMinSizeViolation (message : string)
| IsNotEmptyViolation (index : nat) (property : string).

Inductive HttpException :=
| BadRequestException (message : string)
| ForbiddenException (message : string)
| NotFoundException (message : string)
| ValidationPipeException (violations : list ConstraintViolation)
| FirestoreNotFound (document : string)
| FirestoreInvalidValue (field : string).

(** A computation that either throws or returns. *)
Definition Result (A : Type) : Type := HttpException + A.

Definition throw {A} (e : HttpException) : Result A := inl e.
Definition ret {A} (a : A) : Result A := inr a.

(** ** Shared lookups

    [questionMap.get(answer.questionId)] followed by
    [question.options.find(opt => opt.id === answer.optionId)]: the three
    loops over the answers all start with these two lines. *)

Definition findOption (optionId : string) (options : list AnswerOption.t)
  : option AnswerOption.t :=
  List.find (λ opt, String.eqb (AnswerOption.id opt) optionId) options.

(** ** QuizService.validateAnswers *)

Fixpoint validateAnswers_from (answeredQuestions : gset string)
    (answers : list UserAnswer.t) (questionMap : gmap string Question.t)
  : Result unit :=
  match answers with
  | [] => ret tt
  | answer :: rest =>
    let qid := UserAnswer.questionId answer in
    let oid := UserAnswer.optionId answer in
    if decide (qid ∈ answeredQuestions) then
      throw (BadRequestException ("Duplicate answer for question: " +:+ qid))
    else
      let answeredQuestions := {[qid]} ∪ answeredQuestions in
      match questionMap !! qid with
      | None => throw (BadRequestException ("Invalid question ID: " +:+ qid))
      | Some question =>
        match findOption oid (Question.options question) with
        | None =>
          throw (BadRequestException
                   ("Invalid option ID: " +:+ oid +:+ " for question: " +:+ qid))
        | Some _ => validateAnswers_from answeredQuestions rest questionMap
        end
      end
  end.

Definition validateAnswers (answers : list UserAnswer.t)
    (questionMap : gmap string Question.t) : Result unit :=
  validateAnswers_from ∅ answers questionMap.

(** ** QuizService.calculateScores *)

(** [!v] for a value read from a dictionary of numbers. *)
Definition falsy (v : option Z) : bool :=
  match v with
  | None => true
  | Some z => z =? 0
  end.

(** Body of the inner loop over [Object.entries(option.scores)].  After the
    [if], [scores[personalityId]] is defined, so the read in [+=] never
    sees [undefined].  This is the program for a [personalityId] that is
    not a property name of [Object.prototype] and for a sum within the safe
    integers. *)
Definition addPoints (weight : Z) (scores : gmap string Z)
    (entry : string * Z) : gmap string Z :=
  let '(personalityId, points) := entry in
  let scores :=
    if falsy (scores !! personalityId) then <[personalityId := 0]> scores
    else scores in
  <[personalityId := default 0 (scores !! personalityId) + weight * points]>
    scores.

(** Body of the outer loop over the answers. *)
Definition scoreAnswer (questionMap : gmap string Question.t)
    (scores : gmap string Z) (answer : UserAnswer.t) : gmap string Z :=
  match questionMap !! UserAnswer.questionId answer with
  | None => scores
  | Some question =>
    match findOption (UserAnswer.optionId answer) (Question.options question) with
    | None => scores
    | Some option =>
      foldl (addPoints (Question.weight question)) scores
            (map_to_list (AnswerOption.scores option))
    end
  end.

Definition calculateScores (answers : list UserAnswer.t)
    (questionMap : gmap string Question.t) : gmap string Z :=
  foldl (scoreAnswer questionMap) ∅ answers.

(** ** QuizService.calculateMaxContributions *)

(** Body of the loop over the tied personalities for one selected option:
    [if (option.scores[personalityId])] skips an absent and a zero entry.
    Every personality of the list was initialised with 0, so
    [maxContributions[personalityId]] is defined when it is read.  This is
    the program for a [personalityId] that is not a property name of
    [Object.prototype] and for a product within the safe integers. *)
Definition raiseContribution (weight : Z) (optionScores : gmap string Z)
    (maxContributions : gmap string Z) (personalityId : string)
  : gmap string Z :=
  if falsy (optionScores !! personalityId) then maxContributions
  else
    let contribution := weight * default 0 (optionScores !! personalityId) in
    <[personalityId :=
        Z.max (default 0 (maxContributions !! personalityId)) contribution]>
      maxContributions.

Definition contributionsOfAnswer (personalities : list string)
    (questionMap : gmap string Question.t)
    (maxContributions : gmap string Z) (answer : UserAnswer.t)
  : gmap string Z :=
  match questionMap !! UserAnswer.questionId answer with
  | None => maxContributions
  | Some question =>
    match findOption (UserAnswer.optionId answer) (Question.options question) with
    | None => maxContributions
    | Some option =>
      foldl (raiseContribution (Question.weight question)
                               (AnswerOption.scores option))
            maxContributions personalities
    end
  end.

Definition calculateMaxContributions (personalities : list string)
    (answers : list UserAnswer.t) (questionMap : gmap string Question.t)
  : gmap string Z :=
  let initial := foldl (λ m personalityId, <[personalityId := 0]> m) ∅
                       personalities in
  foldl (contributionsOfAnswer personalities questionMap) initial answers.

(** ** QuizService.resolveTopPersonality *)

(** The result of [Math.max(...values)]: [-Infinity] for no argument. *)
Inductive MaxValue :=
| NegInfinity
| Finite (z : Z).

Definition Math_max (values : list Z) : MaxValue :=
  foldl (λ acc v, match acc with
                  | NegInfinity => Finite v
                  | Finite m => Finite (Z.max m v)
                  end) NegInfinity values.

(** [dict[id] === m] where [m] came from [Math.max]: [undefined] is equal
    to no number, and no integer is equal to [-Infinity]. *)
Definition strictEq (v : option Z) (m : MaxValue) : bool :=
  match v, m with
  | Some a, Finite b => a =? b
  | _, _ => false
  end.

Definition Object_keys (o : gmap string Z) : list string := (map_to_list o).*1.
Definition Object_values (o : gmap string Z) : list Z := (map_to_list o).*2.

(** [Array.prototype.sort()] without comparator orders strings by their
    UTF-16 code units; an insertion sort along [String.leb], which orders
    the bytes and is that order on ASCII strings. *)
Fixpoint sortInsert (x : string) (l : list string) : list string :=
  match l with
  | [] => [x]
  | y :: l' => if String.leb x y then x :: l else y :: sortInsert x l'
  end.

Definition Array_sort (l : list string) : list string := foldr sortInsert [] l.

(** The result is [None] where the source returns [undefined]
    (index 0 of an empty array). *)
Definition resolveTopPersonality (scores : gmap string Z)
    (answers : list UserAnswer.t) (questionMap : gmap string Question.t)
  : option string :=
  let maxScore := Math_max (Object_values scores) in
  let topPersonalities :=
    List.filter (λ id, strictEq (scores !! id) maxScore) (Object_keys scores) in
  if (length topPersonalities =? 1)%nat then head topPersonalities
  else
    let maxContributions :=
      calculateMaxContributions topPersonalities answers questionMap in
    let maxContribution := Math_max (Object_values maxContributions) in
    let winnersAfterTieBreak :=
      List.filter (λ id, strictEq (maxContributions !! id) maxContribution)
                  topPersonalities in
    head (Array_sort winnersAfterTieBreak).

(** ** Users and the single-attempt gate (src/users/users.service.ts) *)

Module User.
Record t := mk {
  id : string;
  email : string;
  password : string;
  name : string;
  createdAt : Z;
  hasCompletedQuiz : bool;
  quizToken : option string
}.
End User.

Module QuizResult.
Record t := mk {
  id : string;
  userId : string;
  topPersonality : option string;
  scores : gmap string Z;
  answers : list UserAnswer.t;
  createdAt : Z
}.
End QuizResult.

(** The three collections the submission path touches.  [questions] is the
    answer of the query [orderBy('order')]. *)
Record Firestore := mkFirestore {
  users : gmap string User.t;
  questions : list Question.t;
  results : gmap string QuizResult.t
}.

Definition findById (db : Firestore) (userId : string) : option User.t :=
  users db !! userId.

Definition hasCompletedQuiz (db : Firestore) (userId : string) : Result bool :=
  match findById db userId with
  | None => throw (NotFoundException "User not found")
  | Some user => ret (User.hasCompletedQuiz user)
  end.

(** [doc(userId).update({...})]: Firestore refuses to update a document
    that does not exist. *)
Definition markQuizCompleted (db : Firestore) (userId quizToken : string)
  : Result unit * Firestore :=
  match users db !! userId with
  | None => (throw (FirestoreNotFound userId), db)
  | Some user =>
    let user' := User.mk (User.id user) (User.email user) (User.password user)
                         (User.name user) (User.createdAt user)
                         true (Some quizToken) in
    (ret tt, mkFirestore (<[userId := user']> (users db)) (questions db)
                         (results db))
  end.

(** ** QuizService.getQuestions, saveResult, submitQuiz *)

Definition getQuestions (db : Firestore) : Result (list Question.t) :=
  match questions db with
  | [] => throw (NotFoundException "No questions found in database")
  | qs => ret qs
  end.

(** [new Map(questions.map((q) => [q.id, q]))]: a later question replaces
    an earlier one with the same id. *)
Definition buildQuestionMap (questions : list Question.t)
  : gmap string Question.t :=
  foldl (λ m q, <[Question.id q := q]> m) ∅ questions.

(** [doc(result.id).set({...})].  The only field of the document that can
    be [undefined] is [topPersonality]; the client then throws (cannot use
    undefined as a Firestore value, found in field topPersonality) and
    writes nothing. *)
Definition saveResult (db : Firestore) (result : QuizResult.t)
  : Result unit * Firestore :=
  match QuizResult.topPersonality result with
  | None => (throw (FirestoreInvalidValue "topPersonality"), db)
  | Some _ =>
    (ret tt,
     mkFirestore (users db) (questions db)
                 (<[QuizResult.id result := result]> (results db)))
  end.

Module SubmitQuizDto.
Record t := mk {
  answers : list UserAnswer.t
}.
End SubmitQuizDto.

Module SubmitQuizResponse.
Record t := mk {
  token : string;
  topPersonality : option string;
  scores : gmap string Z
}.
End SubmitQuizResponse.

Definition alreadyCompletedMessage : string :=
  "You have already completed the quiz. Each user can only take the quiz once.".

(** [token] is the value of [nanoid()] and [now] the value of [new Date()]
    in this call. *)
Definition submitQuiz (db : Firestore) (submitQuizDto : SubmitQuizDto.t)
    (userId : string) (token : string) (now : Z)
  : Result SubmitQuizResponse.t * Firestore :=
  match hasCompletedQuiz db userId with
  | inl e => (throw e, db)
  | inr true => (throw (ForbiddenException alreadyCompletedMessage), db)
  | inr false =>
    let answers := SubmitQuizDto.answers submitQuizDto in
    match getQuestions db with
    | inl e => (throw e, db)
    | inr questions =>
      let questionMap := buildQuestionMap questions in
      match validateAnswers answers questionMap with
      | inl e => (throw e, db)
      | inr _ =>
        let scores := calculateScores answers questionMap in
        let topPersonality := resolveTopPersonality scores answers questionMap in
        let result :=
          QuizResult.mk token userId topPersonality scores
            (map (λ a, UserAnswer.mk (UserAnswer.questionId a)
                                     (UserAnswer.optionId a)) answers)
            now in
        match saveResult db result with
        | (inl e, db) => (throw e, db)
        | (inr _, db) =>
          match markQuizCompleted db userId token with
          | (inl e, db) => (throw e, db)
          | (inr _, db) =>
            (ret (SubmitQuizResponse.mk token topPersonality scores), db)
          end
        end
      end
    end
  end.

(** ** The submission DTO and the controller (src/quiz/dto/submit-quiz.dto.ts,
       src/quiz/quiz.controller.ts, the global pipe of src/main.ts) *)

(** [@IsNotEmpty()] on the two fields of [UserAnswerDto]. *)
Definition validateUserAnswerDto (index : nat) (a : UserAnswer.t)
  : list ConstraintViolation :=
  (if String.eqb (UserAnswer.questionId a) "" then
     [IsNotEmptyViolation index "questionId"] else []) ++
  (if String.eqb (UserAnswer.optionId a) "" then
     [IsNotEmptyViolation index "optionId"] else []).

(** [@ArrayMinSize(1, { message: 'At least one answer is required' })] and
    [@ValidateNested({ each: true })] on [answers], for a body that has the
    shape of the DTO: an [answers] array of objects with the two string
    fields and no other property.  What the pipe does with a body of
    another shape is not modelled. *)
Definition validateSubmitQuizDto (dto : SubmitQuizDto.t)
  : list ConstraintViolation :=
  (if (length (SubmitQuizDto.answers dto) <? 1)%nat then
     [ArrayMinSizeViolation "At least one answer is required"] else []) ++
  concat (imap validateUserAnswerDto (SubmitQuizDto.answers dto)).

(** [POST /quiz/submit] for an authenticated request: the pipe validates the
    body, then the handler calls the service. *)
Definition QuizController_submitQuiz (db : Firestore)
    (submitQuizDto : SubmitQuizDto.t) (userId : string) (token : string)
    (now : Z) : Result SubmitQuizResponse.t * Firestore :=
  match validateSubmitQuizDto submitQuizDto with
  | [] => submitQuiz db submitQuizDto userId token now
  | violations => (throw (ValidationPipeException violations), db)
  end.

(** ** A concrete catalog: the scenario of the specification *)

Definition optA (scores : list (string * Z)) : AnswerOption.t :=
  AnswerOption.mk "optionA" "A" (list_to_map scores).

Definition scenarioCatalog : list Question.t :=
  [ Question.mk "Q1" "first" 4 [optA [("architect", 3); ("leader", 1)]] 1;
    Question.mk "Q2" "second" 2 [optA [("architect", 3)]] 2;
    Question.mk "Q3" "third" 5 [optA [("leader", 3)]] 3 ].

Definition scenarioAnswers : list UserAnswer.t :=
  [ UserAnswer.mk "Q1" "optionA"; UserAnswer.mk "Q2" "optionA";
    UserAnswer.mk "Q3" "optionA" ].

(** ** The terms in which the specification speaks *)

(** The question an answer names and, among the options of that question
    whose id is the answer's optionId, the first: the selected option.
    Written without the code's [findOption]. *)
Definition selected (questionMap : gmap string Question.t)
    (answer : UserAnswer.t) : option (Question.t * AnswerOption.t) :=
  question ← questionMap !! UserAnswer.questionId answer;
  option ← head (filter (λ o, AnswerOption.id o = UserAnswer.optionId answer)
                        (Question.options question));
  Some (question, option).

(** [question.weight × option.scores[category]] for one answer; [None] when
    the category is not a key of the selected option's scoring map. *)
Definition contribution (questionMap : gmap string Question.t)
    (category : string) (answer : UserAnswer.t) : option Z :=
  qo ← selected questionMap answer;
  points ← AnswerOption.scores qo.2 !! category;
  Some (Question.weight qo.1 * points).

(** The category is a key of the scoring map of some selected option. *)
Definition appears (questionMap : gmap string Question.t)
    (category : string) (answers : list UserAnswer.t) : bool :=
  existsb (λ a, bool_decide (is_Some (contribution questionMap category a)))
          answers.

(** The sum over the answers of the contributions to a category. *)
Definition total (questionMap : gmap string Question.t)
    (category : string) (answers : list UserAnswer.t) : Z :=
  foldr (λ a acc, default 0 (contribution questionMap category a) + acc) 0
        answers.

(** ** Validation *)

(** What the specification calls an offending entry, in its own words: the
    questionId reappears, or it is absent from the catalog, or the optionId
    is not among the options of that question; checked in this order, with
    the message the exception cites. *)
Definition offence (questionMap : gmap string Question.t)
    (earlier : list UserAnswer.t) (answer : UserAnswer.t)
  : option HttpException :=
  let qid := UserAnswer.questionId answer in
  let oid := UserAnswer.optionId answer in
  if decide (qid ∈ UserAnswer.questionId <$> earlier) then
    Some (BadRequestException ("Duplicate answer for question: " +:+ qid))
  else
    match questionMap !! qid with
    | None => Some (BadRequestException ("Invalid question ID: " +:+ qid))
    | Some question =>
      if decide (oid ∈ AnswerOption.id <$> Question.options question) then None
      else Some (BadRequestException
                   ("Invalid option ID: " +:+ oid +:+ " for question: " +:+ qid))
    end.

(** ** The domain of the data model *)

(** [Number.MAX_SAFE_INTEGER], 2^53 - 1: up to it binary64 holds every
    integer, and sums and products of integers that stay within it are
    exact. *)
Definition MAX_SAFE_INTEGER : Z := 9007199254740991.

(** The property names of [Object.prototype]. *)
Definition objectPrototypeKeys : list string :=
  [ "constructor"; "__defineGetter__"; "__defineSetter__"; "hasOwnProperty";
    "__lookupGetter__"; "__lookupSetter__"; "isPrototypeOf";
    "propertyIsEnumerable"; "toString"; "valueOf"; "__proto__";
    "toLocaleString" ].

(** A category id on which the finite maps are the program's objects and
    the byte order is the order of [sort()]: ASCII, and not a property name
    of [Object.prototype]. *)
Definition plainId (id : string) : bool :=
  forallb (λ c, (Ascii.nat_of_ascii c <? 128)%nat)
          (String.list_ascii_of_string id) &&
  negb (existsb (String.eqb id) objectPrototypeKeys).

Definition plainOption (o : AnswerOption.t) : bool :=
  forallb (λ entry, plainId entry.1) (map_to_list (AnswerOption.scores o)).

(** Every category id of every scoring map of the catalog is plain. *)
Definition plainCategories (questionMap : gmap string Question.t) : bool :=
  forallb (λ entry, forallb plainOption (Question.options entry.2))
          (map_to_list questionMap).

Definition boundedOption (P : Z) (o : AnswerOption.t) : bool :=
  forallb (λ entry, Z.abs entry.2 <=? P) (map_to_list (AnswerOption.scores o)).

(** Every weight of the catalog is at most [W] and every number of points
    at most [P], in absolute value ([W] and [P] are not negative). *)
Definition boundedCatalog (W P : Z) (questionMap : gmap string Question.t)
  : bool :=
  (0 <=? W) && (0 <=? P) &&
  forallb (λ entry, (Z.abs (Question.weight entry.2) <=? W) &&
                    forallb (boundedOption P) (Question.options entry.2))
          (map_to_list questionMap).

(** The answers are few enough for every running sum to stay within the
    safe integers, in whatever order they are added. *)
Definition safeSums (W P : Z) (answers : list UserAnswer.t) : Prop :=
  W * P * Z.of_nat (length answers) ≤ MAX_SAFE_INTEGER.

(** ** Catalogs with non-negative weights and points *)

Definition nonNegativeOption (o : AnswerOption.t) : bool :=
  forallb (λ entry, 0 <=? entry.2) (map_to_list (AnswerOption.scores o)).

Definition nonNegativeQuestion (q : Question.t) : bool :=
  (0 <=? Question.weight q) && forallb nonNegativeOption (Question.options q).

Definition nonNegativeCatalog (questionMap : gmap string Question.t) : bool :=
  forallb (λ entry, nonNegativeQuestion entry.2) (map_to_list questionMap).

(** A catalog in which a selected option lists a category with 0 points. *)
Definition zeroPointsCatalog : list Question.t :=
  [ Question.mk "Q1" "first" 4 [optA [("architect", 0); ("leader", 2)]] 1 ].

Definition zeroPointsAnswers : list UserAnswer.t :=
  [ UserAnswer.mk "Q1" "optionA" ].

(** ** The tie-break contributions *)

(** What one answer feeds into [Math.max] for a category: the product, but
    only when the points are truthy. *)
Definition counted (questionMap : gmap string Question.t)
    (category : string) (answer : UserAnswer.t) : option Z :=
  qo ← selected questionMap answer;
  points ← AnswerOption.scores qo.2 !! category;
  if points =? 0 then None else Some (Question.weight qo.1 * points).

(** The value [maxContributions[category]] ends with: it starts at 0 and is
    raised by every counted contribution. *)
Definition raisedFrom (questionMap : gmap string Question.t)
    (category : string) (start : Z) (answers : list UserAnswer.t) : Z :=
  foldl (λ acc a, match counted questionMap category a with
                  | Some x => Z.max acc x
                  | None => acc
                  end) start answers.

(** The specification's maximum single-question contribution: the largest
    question.weight × option.scores[category] over the answers, 0 if the
    category appears in no selected option. *)
Definition largestContribution (questionMap : gmap string Question.t)
    (category : string) (answers : list UserAnswer.t) : Z :=
  match omap (contribution questionMap category) answers with
  | [] => 0
  | x :: xs => foldr Z.max x xs
  end.

(** The largest of 0 and the products question.weight ×
    option.scores[category] over the answers. *)
Definition clampedContribution (questionMap : gmap string Question.t)
    (category : string) (answers : list UserAnswer.t) : Z :=
  foldr Z.max 0 (omap (contribution questionMap category) answers).

(** ** The three-level cascade *)

Section Cascade.
Variable scores : gmap string Z.
Variable measure : string → Z.
(** Level 1: the categories of the breakdown with the maximum total. *)
Definition contender (c : string) : Prop :=
  ∃ v, scores !! c = Some v ∧ ∀ c' v', scores !! c' = Some v' → v' ≤ v.
(** Level 2: the contenders whose tie-break value [measure] is the maximum
    over the contenders. *)
Definition finalist (c : string) : Prop :=
  contender c ∧ ∀ c', contender c' → measure c' ≤ measure c.
(** The winner: the single contender when there is exactly one; otherwise
    the lexicographically smallest of the contenders that remain after
    level 2. *)
Definition cascadeWinner (w : string) : Prop :=
  contender w ∧
  ((∀ c, contender c → c = w) ∨
   (finalist w ∧ ∀ c, finalist c → String.leb w c = true)).
End Cascade.

(** Two categories tie at 12; "beta" has the larger single contribution. *)
Definition tieCatalog : list Question.t :=
  [ Question.mk "Q1" "first" 2 [optA [("alpha", 3); ("beta", 4)]] 1;
    Question.mk "Q2" "second" 2 [optA [("alpha", 3); ("beta", 2)]] 2 ].

Definition tieAnswers : list UserAnswer.t :=
  [ UserAnswer.mk "Q1" "optionA"; UserAnswer.mk "Q2" "optionA" ].

(** Two categories with the same profile. *)
Definition fullTieCatalog : list Question.t :=
  [ Question.mk "Q1" "first" 3 [optA [("beta", 2); ("alpha", 2)]] 1 ].

Definition fullTieAnswers : list UserAnswer.t :=
  [ UserAnswer.mk "Q1" "optionA" ].

(** A catalog with negative points; with [tieAnswers] both categories
    total -2. *)
Definition negativeCatalog : list Question.t :=
  [ Question.mk "Q1" "first" 1 [optA [("alpha", -2); ("beta", -1)]] 1;
    Question.mk "Q2" "second" 1 [optA [("beta", -1)]] 2 ].

(** ** Submissions as steps of the store *)

(** One call of submitQuiz with the values it draws from its environment. *)
Record Submission := mkSubmission {
  subDto : SubmitQuizDto.t;
  subUser : string;
  subToken : string;
  subNow : Z
}.

Definition submit (db : Firestore) (s : Submission)
  : Result SubmitQuizResponse.t * Firestore :=
  submitQuiz db (subDto s) (subUser s) (subToken s) (subNow s).

(** A sequential execution: the calls run one after the other.  submitQuiz
    is the only operation of the service that writes a Result or the flag. *)
Definition run (db : Firestore) (calls : list Submission) : Firestore :=
  foldl (λ db s, (submit db s).2) db calls.

(** The stored Results a user owns. *)
Definition resultsOfUser (db : Firestore) (userId : string)
  : list (string * QuizResult.t) :=
  List.filter (λ entry, String.eqb (QuizResult.userId entry.2) userId)
              (map_to_list (results db)).

(** The user document after markQuizCompleted. *)
Definition completed (user : User.t) (quizToken : string) : User.t :=
  User.mk (User.id user) (User.email user) (User.password user)
          (User.name user) (User.createdAt user) true (Some quizToken).

(** The Result submitQuiz builds. *)
Definition resultOf (db : Firestore) (s : Submission) : QuizResult.t :=
  let answers := SubmitQuizDto.answers (subDto s) in
  let questionMap := buildQuestionMap (questions db) in
  let scores := calculateScores answers questionMap in
  QuizResult.mk (subToken s) (subUser s)
    (resolveTopPersonality scores answers questionMap) scores
    (map (λ a, UserAnswer.mk (UserAnswer.questionId a) (UserAnswer.optionId a))
         answers)
    (subNow s).

(** What the scoring path hands back, without the token. *)
Definition verdict (r : Result SubmitQuizResponse.t)
  : Result (gmap string Z * option string) :=
  match r with
  | inl e => inl e
  | inr response =>
    inr (SubmitQuizResponse.scores response,
         SubmitQuizResponse.topPersonality response)
  end.

(** The store keeps the gate closed behind every Result: the owner of a
    stored Result has the flag set, and no user owns two Results. *)
Definition gateInvariant (db : Firestore) : Prop :=
  (∀ tok r, results db !! tok = Some r →
     ∃ u, users db !! QuizResult.userId r = Some u ∧
          User.hasCompletedQuiz u = true) ∧
  (∀ tok tok' r r', results db !! tok = Some r → results db !! tok' = Some r' →
     QuizResult.userId r = QuizResult.userId r' → tok = tok').

(** ** The single-attempt gate *)

Definition aliceUser (done_ : bool) : User.t :=
  User.mk "alice" "alice@example.org" "hash" "Alice" 0 done_ None.

Definition freshStore : Firestore :=
  mkFirestore {[ "alice" := aliceUser false ]} scenarioCatalog ∅.

Definition aliceSubmission : Submission :=
  mkSubmission (SubmitQuizDto.mk scenarioAnswers) "alice" "token-1" 1000.

Definition aliceAgain : Submission :=
  mkSubmission (SubmitQuizDto.mk []) "alice" "token-2" 2000.

(** ** Rejected submissions *)

Definition duplicateAnswers : list UserAnswer.t :=
  [ UserAnswer.mk "Q1" "optionA"; UserAnswer.mk "Q2" "optionA";
    UserAnswer.mk "Q1" "optionA" ].

(** ** Determinism across users and runs *)

Definition bobUser : User.t :=
  User.mk "bob" "bob@example.org" "hash2" "Bob" 5 false None.

(** Another store with the same catalog, another user and an unrelated
    Result already in it. *)
Definition otherStore : Firestore :=
  mkFirestore {[ "bob" := bobUser ]} scenarioCatalog
    {[ "token-0" := QuizResult.mk "token-0" "carol" (Some "explorer")
                      {[ "explorer" := 7 ]} [] 10 ]}.

(** ** A breakdown without categories *)

(** Every option of the only question has an empty scoring map. *)
Definition silentCatalog : list Question.t :=
  [ Question.mk "Q1" "first" 3 [optA []] 1 ].

Definition silentStore : Firestore :=
  mkFirestore {[ "alice" := aliceUser false ]} silentCatalog ∅.

Definition silentAnswers : list UserAnswer.t :=
  [ UserAnswer.mk "Q1" "optionA" ].

(** ** QuizService.getPersonalities, getResult, getMyResult *)

Module Personality.
Record t := mk {
  id : string;
  name : string;
  description : string;
  traits : list string
}.
End Personality.

(** The enriched result of getResult and getMyResult. *)
Module QuizResultResponse.
Record t := mk {
  id : string;
  topPersonality : Personality.t;
  scores : gmap string Z;
  createdAt : Z
}.
End QuizResultResponse.

(** [personalities] is the answer of the query [orderBy('id')] on the
    personalities collection. *)
Definition getPersonalities (personalities : list Personality.t)
  : Result (list Personality.t) :=
  match personalities with
  | [] => throw (NotFoundException "No personalities found in database")
  | ps => ret ps
  end.

(** [p.id === result.topPersonality], where the stored field may be
    [undefined]. *)
Definition isTopPersonality (topPersonality : option string)
    (p : Personality.t) : bool :=
  match topPersonality with
  | Some id => String.eqb (Personality.id p) id
  | None => false
  end.

(** [`${v}`] for a string that may be [undefined]. *)
Definition interpolate (v : option string) : string := default "undefined" v.

Definition getResult (db : Firestore) (personalities : list Personality.t)
    (token userId : string) : Result QuizResultResponse.t :=
  match results db !! token with
  | None =>
    throw (NotFoundException ("Result with token " +:+ token +:+ " not found"))
  | Some result =>
    if negb (String.eqb (QuizResult.userId result) userId) then
      throw (ForbiddenException "You can only access your own quiz results")
    else
      match getPersonalities personalities with
      | inl e => throw e
      | inr personalities =>
        match List.find (isTopPersonality (QuizResult.topPersonality result))
                        personalities with
        | None =>
          throw (NotFoundException
                   ("Personality " +:+
                    interpolate (QuizResult.topPersonality result) +:+
                    " not found"))
        | Some topPersonalityData =>
          ret (QuizResultResponse.mk (QuizResult.id result) topPersonalityData
                 (QuizResult.scores result) (QuizResult.createdAt result))
        end
      end
  end.

(** [!user.quizToken]: the token is absent or the empty string. *)
Definition noToken (quizToken : option string) : bool :=
  match quizToken with
  | None => true
  | Some t => String.eqb t ""
  end.

Definition getMyResult (db : Firestore) (personalities : list Personality.t)
    (userId : string) : Result QuizResultResponse.t :=
  match findById db userId with
  | None => throw (NotFoundException "You have not completed the quiz yet")
  | Some user =>
    if negb (User.hasCompletedQuiz user) || noToken (User.quizToken user) then
      throw (NotFoundException "You have not completed the quiz yet")
    else
      getResult db personalities (default "" (User.quizToken user)) userId
  end.

(** ** UsersService.findByEmail, createUser *)

Inductive UsersException :=
| ConflictException (message : string).

(** The query [where('email', '==', email).limit(1)]: the first matching
    document in the enumeration of the collection. *)
Definition findByEmail (db : Firestore) (email : string) : option User.t :=
  List.find (λ u, String.eqb (User.email u) email) (map_to_list (users db)).*2.

(** [hashedPassword] is the value of [bcrypt.hash(password, 10)], [userId]
    the value of [nanoid()] and [now] the value of [new Date()] in this
    call.  The stored document has no [quizToken] field. *)
Definition createUser (db : Firestore) (email hashedPassword name : string)
    (userId : string) (now : Z) : (UsersException + User.t) * Firestore :=
  match findByEmail db email with
  | Some _ => (inl (ConflictException "User with this email already exists"), db)
  | None =>
    let user := User.mk userId email hashedPassword name now false None in
    (inr user,
     mkFirestore (<[userId := user]> (users db)) (questions db) (results db))
  end.

(** ** Executions that mix registrations and submissions *)

Record Registration := mkRegistration {
  regEmail : string;
  regHash : string;
  regName : string;
  regId : string;
  regNow : Z
}.

Inductive Call :=
| RegisterCall (r : Registration)
| SubmitCall (s : Submission).

Definition register (db : Firestore) (r : Registration)
  : (UsersException + User.t) * Firestore :=
  createUser db (regEmail r) (regHash r) (regName r) (regId r) (regNow r).

Definition step (db : Firestore) (c : Call) : Firestore :=
  match c with
  | RegisterCall r => (register db r).2
  | SubmitCall s => (submit db s).2
  end.

(** The nanoid values drawn along the execution are new and non-empty: a
    registration draws an id no user has, a submission a token no Result
    has. *)
Fixpoint freshIds (db : Firestore) (calls : list Call) : Prop :=
  match calls with
  | [] => True
  | c :: rest =>
    match c with
    | RegisterCall r => users db !! regId r = None
    | SubmitCall s => results db !! subToken s = None ∧ subToken s ≠ ""
    end ∧ freshIds (step db c) rest
  end.

Definition execute (db : Firestore) (calls : list Call) : Firestore :=
  foldl step db calls.

(** No two user documents share an email. *)
Definition uniqueEmails (db : Firestore) : Prop :=
  ∀ uid1 uid2 u1 u2,
    users db !! uid1 = Some u1 → users db !! uid2 = Some u2 →
    User.email u1 = User.email u2 → uid1 = uid2.

(** Every user whose flag is set points to a stored Result of their own. *)
Definition linkInvariant (db : Firestore) : Prop :=
  ∀ uid u, users db !! uid = Some u → User.hasCompletedQuiz u = true →
    ∃ t r, User.quizToken u = Some t ∧ t ≠ "" ∧
           results db !! t = Some r ∧ QuizResult.userId r = uid ∧
           QuizResult.id r = t.

(** The answers that select an existing option of an existing question. *)
Definition resolvable (questionMap : gmap string Question.t)
    (answer : UserAnswer.t) : bool :=
  bool_decide (is_Some (selected questionMap answer)).

Definition fourPersonalities : list Personality.t :=
  [ Personality.mk "architect" "The Architect" "plans ahead" [];
    Personality.mk "explorer" "The Explorer" "curious" [];
    Personality.mk "leader" "The Leader" "decides" [];
    Personality.mk "supporter" "The Supporter" "helps" [] ].

Definition emptyStore : Firestore := mkFirestore ∅ scenarioCatalog ∅.

(** The store after Alice's submission. *)
Definition aliceDone : Firestore := run freshStore [aliceSubmission].

Definition aliceRegistration : Registration :=
  mkRegistration "alice@example.org" "hash" "Alice" "alice" 0.

(** Alice registers and submits. *)
Definition aliceJourney : list Call :=
  [ RegisterCall aliceRegistration; SubmitCall aliceSubmission ].

(** A registration that draws Alice's id again, followed by a second
    submission under that id. *)
Definition collidingJourney : list Call :=
  aliceJourney ++
  [ RegisterCall (mkRegistration "mallory@example.org" "h" "Mallory" "alice" 7);
    SubmitCall (mkSubmission (SubmitQuizDto.mk scenarioAnswers) "alice"
                             "token-2" 2000) ].

(** Alice registers, submits, and someone registers with her email again. *)
Definition aliceTwice : list Call :=
  [ RegisterCall aliceRegistration;
    SubmitCall aliceSubmission;
    RegisterCall (mkRegistration "alice@example.org" "other" "Alice B"
                                 "alice-2" 5) ].

(** * Properties *)

(** ** A concrete catalog: the scenario of the specification *)

Example scenario_scores :
  map_to_list (calculateScores scenarioAnswers (buildQuestionMap scenarioCatalog))
  ≡ₚ [("architect", 18); ("leader", 19)].
Proof. vm_compute. reflexivity || apply perm_swap. Qed.

Example scenario_winner :
  let qm := buildQuestionMap scenarioCatalog in
  resolveTopPersonality (calculateScores scenarioAnswers qm) scenarioAnswers qm
  = Some "leader".
Proof. vm_compute. reflexivity. Qed.

(** ** The scoring loops, one lookup at a time *)

(** The code's [find] returns the first option with the answer's id. *)
Lemma findOption_head_filter (oid : string) (options : list AnswerOption.t) :
  findOption oid options =
  head (filter (λ o, AnswerOption.id o = oid) options).
Proof.
  unfold findOption. induction options as [|o options IH]; [done|].
  rewrite filter_cons. cbn [List.find].
  destruct (String.eqb_spec (AnswerOption.id o) oid) as [Heq|Hne].
  - by rewrite decide_True.
  - by rewrite decide_False.
Qed.

Lemma selected_findOption (qm : gmap string Question.t) (a : UserAnswer.t) :
  selected qm a =
  (question ← qm !! UserAnswer.questionId a;
   option ← findOption (UserAnswer.optionId a) (Question.options question);
   Some (question, option)).
Proof.
  unfold selected. destruct (qm !! UserAnswer.questionId a); [|done]. simpl.
  by rewrite findOption_head_filter.
Qed.

Lemma addPoints_lookup (w : Z) (s : gmap string Z) (k : string) (p : Z)
    (c : string) :
  addPoints w s (k, p) !! c =
  if decide (k = c) then Some (default 0 (s !! k) + w * p) else s !! c.
Proof.
  unfold addPoints. case_decide as Hkc.
  - subst c. rewrite lookup_insert_eq. f_equal. f_equal.
    destruct (s !! k) as [z|] eqn:Hs; simpl.
    + destruct (Z.eqb_spec z 0) as [->|Hz]; simpl.
      * by rewrite lookup_insert_eq.
      * by rewrite Hs.
    + by rewrite lookup_insert_eq.
  - rewrite lookup_insert_ne by done.
    destruct (falsy (s !! k)); [by rewrite lookup_insert_ne|done].
Qed.

Lemma foldl_addPoints_lookup (w : Z) (l : list (string * Z)) :
  NoDup l.*1 →
  ∀ (s : gmap string Z) (c : string),
    foldl (addPoints w) s l !! c =
    match (list_to_map l : gmap string Z) !! c with
    | Some p => Some (default 0 (s !! c) + w * p)
    | None => s !! c
    end.
Proof.
  induction l as [|[k p] l IH]; intros Hnd s c; cbn [foldl].
  - done.
  - apply NoDup_cons in Hnd as [Hk Hnd]. rewrite IH by done.
    rewrite addPoints_lookup. cbn [list_to_map foldr uncurry fst snd].
    destruct (decide (k = c)) as [->|Hkc].
    + rewrite lookup_insert_eq.
      by rewrite (not_elem_of_list_to_map_1 _ _ Hk).
    + by rewrite lookup_insert_ne.
Qed.

(** Any enumeration of the entries of a scoring map gives the same scores. *)
Lemma addPoints_enumeration_order (w : Z) (m s : gmap string Z)
    (entries : list (string * Z)) :
  entries ≡ₚ map_to_list m →
  foldl (addPoints w) s entries = foldl (addPoints w) s (map_to_list m).
Proof.
  intros Hperm. apply map_eq. intros c.
  assert (Hnd : NoDup entries.*1).
  { rewrite Hperm. apply NoDup_fst_map_to_list. }
  rewrite !foldl_addPoints_lookup by (done || apply NoDup_fst_map_to_list).
  by rewrite (list_to_map_proper _ _ Hnd Hperm).
Qed.

Lemma scoreAnswer_lookup (qm : gmap string Question.t) (s : gmap string Z)
    (a : UserAnswer.t) (c : string) :
  scoreAnswer qm s a !! c =
  match contribution qm c a with
  | Some x => Some (default 0 (s !! c) + x)
  | None => s !! c
  end.
Proof.
  unfold scoreAnswer, contribution. rewrite selected_findOption.
  destruct (qm !! UserAnswer.questionId a) as [q|]; simpl; [|done].
  destruct (findOption _ _) as [o|]; simpl; [|done].
  rewrite foldl_addPoints_lookup by apply NoDup_fst_map_to_list.
  rewrite list_to_map_to_list.
  by destruct (AnswerOption.scores o !! c).
Qed.

Lemma appears_cons (qm : gmap string Question.t) (c : string)
    (a : UserAnswer.t) (l : list UserAnswer.t) :
  appears qm c (a :: l) =
  bool_decide (is_Some (contribution qm c a)) || appears qm c l.
Proof. reflexivity. Qed.

Lemma total_cons (qm : gmap string Question.t) (c : string)
    (a : UserAnswer.t) (l : list UserAnswer.t) :
  total qm c (a :: l) = default 0 (contribution qm c a) + total qm c l.
Proof. reflexivity. Qed.

Lemma total_not_appears (qm : gmap string Question.t) (c : string)
    (l : list UserAnswer.t) :
  appears qm c l = false → total qm c l = 0.
Proof.
  induction l as [|a l IH]; [done|].
  rewrite appears_cons, total_cons. intros [Ha Hl]%orb_false_iff.
  rewrite IH by done. apply bool_decide_eq_false in Ha.
  destruct (contribution qm c a); [by destruct Ha|done].
Qed.

Lemma foldl_scoreAnswer_lookup (qm : gmap string Question.t)
    (answers : list UserAnswer.t) :
  ∀ (s : gmap string Z) (c : string),
    foldl (scoreAnswer qm) s answers !! c =
    if appears qm c answers
    then Some (default 0 (s !! c) + total qm c answers)
    else s !! c.
Proof.
  induction answers as [|a answers IH]; intros s c; [done|].
  cbn [foldl]. rewrite IH, scoreAnswer_lookup, appears_cons, total_cons.
  pose proof (total_not_appears qm c answers) as Hzero.
  destruct (contribution qm c a) as [x|] eqn:Hx.
  - rewrite bool_decide_eq_true_2 by eauto.
    destruct (appears qm c answers); cbn [orb default from_option id];
      f_equal; [|rewrite Hzero by done]; lia.
  - rewrite bool_decide_eq_false_2 by (intros [? ?]; done).
    destruct (appears qm c answers); cbn [orb default from_option id];
      f_equal; lia.
Qed.

Lemma calculateScores_lookup (qm : gmap string Question.t)
    (answers : list UserAnswer.t) (c : string) :
  calculateScores answers qm !! c =
  if appears qm c answers then Some (total qm c answers) else None.
Proof.
  unfold calculateScores. rewrite foldl_scoreAnswer_lookup, lookup_empty.
  by destruct (appears qm c answers).
Qed.

(** ** Validation *)

Lemma findOption_None (oid : string) (options : list AnswerOption.t) :
  findOption oid options = None ↔ oid ∉ AnswerOption.id <$> options.
Proof.
  unfold findOption. induction options as [|o options IH]; simpl.
  - split; [intros _; apply not_elem_of_nil|done].
  - rewrite not_elem_of_cons.
    destruct (String.eqb_spec (AnswerOption.id o) oid) as [Heq|Hne].
    + split; [done|]. intros [Hne _]. by destruct Hne.
    + rewrite IH. split; [intros ?; split; [congruence|done]|by intros [_ ?]].
Qed.

Lemma findOption_Some (oid : string) (options : list AnswerOption.t)
    (o : AnswerOption.t) :
  findOption oid options = Some o → o ∈ options ∧ AnswerOption.id o = oid.
Proof.
  unfold findOption. intros [Hin Heq]%List.find_some.
  split; [by apply list_elem_of_In|by apply String.eqb_eq].
Qed.

Lemma validateAnswers_from_spec (qm : gmap string Question.t) :
  ∀ (rest earlier : list UserAnswer.t) (seen : gset string),
    (∀ x, x ∈ seen ↔ x ∈ UserAnswer.questionId <$> earlier) →
    match validateAnswers_from seen rest qm with
    | inr _ =>
      ∀ i a, rest !! i = Some a → offence qm (earlier ++ take i rest) a = None
    | inl e =>
      ∃ i a, rest !! i = Some a ∧
             offence qm (earlier ++ take i rest) a = Some e ∧
             ∀ j b, (j < i)%nat → rest !! j = Some b →
                    offence qm (earlier ++ take j rest) b = None
    end.
Proof.
  induction rest as [|a rest IH]; intros earlier seen Hseen.
  - simpl. intros i a Hi. by rewrite lookup_nil in Hi.
  - cbn [validateAnswers_from].
    assert (Hhere : ∀ e, offence qm earlier a = Some e →
              ∃ i b, (a :: rest) !! i = Some b ∧
                     offence qm (earlier ++ take i (a :: rest)) b = Some e ∧
                     ∀ j b', (j < i)%nat → (a :: rest) !! j = Some b' →
                       offence qm (earlier ++ take j (a :: rest)) b' = None).
    { intros e He. exists 0%nat, a. simpl. rewrite app_nil_r.
      split; [done|]. split; [done|]. intros j b' Hj. lia. }
    destruct (decide (UserAnswer.questionId a ∈ seen)) as [Hdup|Hfresh].
    { apply Hhere. unfold offence. apply Hseen in Hdup. by rewrite decide_True. }
    assert (Hfresh' : UserAnswer.questionId a ∉ UserAnswer.questionId <$> earlier)
      by (by rewrite <- Hseen).
    destruct (qm !! UserAnswer.questionId a) as [q|] eqn:Hq.
    2:{ apply Hhere. unfold offence. by rewrite decide_False, Hq. }
    destruct (findOption _ _) as [o|] eqn:Ho.
    2:{ apply Hhere. unfold offence. rewrite decide_False, Hq by done.
        apply findOption_None in Ho. by rewrite decide_False. }
    assert (Hok : offence qm earlier a = None).
    { unfold offence. rewrite decide_False, Hq by done.
      rewrite decide_True; [done|].
      destruct (decide (UserAnswer.optionId a ∈
                        AnswerOption.id <$> Question.options q)) as [|Hn]; [done|].
      apply findOption_None in Hn. congruence. }
    specialize (IH (earlier ++ [a]) ({[UserAnswer.questionId a]} ∪ seen)).
    assert (Hseen' : ∀ x, x ∈ {[UserAnswer.questionId a]} ∪ seen ↔
                          x ∈ UserAnswer.questionId <$> (earlier ++ [a])).
    { intros x. rewrite fmap_app, elem_of_app, elem_of_union, Hseen. simpl.
      rewrite elem_of_singleton, list_elem_of_singleton. tauto. }
    specialize (IH Hseen').
    destruct (validateAnswers_from _ rest qm) as [e|[]].
    + destruct IH as (i & b & Hi & Hoff & Hbefore).
      exists (S i), b. simpl. rewrite cons_middle, app_assoc.
      split; [done|]. split; [done|].
      intros [|j] b' Hj Hb'; simpl in *.
      * rewrite app_nil_r. congruence.
      * rewrite cons_middle, app_assoc. apply Hbefore; [lia|done].
    + intros [|i] b Hb; simpl in *.
      * rewrite app_nil_r. congruence.
      * rewrite cons_middle, app_assoc. by apply IH.
Qed.

(** A validated list has no duplicate question and every answer selects an
    existing option of an existing question. *)
Lemma validateAnswers_from_ok (qm : gmap string Question.t) :
  ∀ (answers : list UserAnswer.t) (seen : gset string),
    validateAnswers_from seen answers qm = inr tt →
    Forall (λ a, is_Some (selected qm a)) answers ∧
    NoDup (UserAnswer.questionId <$> answers) ∧
    Forall (λ a, UserAnswer.questionId a ∉ seen) answers.
Proof.
  induction answers as [|a answers IH]; intros seen Hok.
  - split; [constructor|]. split; constructor.
  - cbn [validateAnswers_from] in Hok.
    destruct (decide (UserAnswer.questionId a ∈ seen)) as [|Hfresh]; [done|].
    destruct (qm !! UserAnswer.questionId a) as [q|] eqn:Hq; [|done].
    destruct (findOption _ _) as [o|] eqn:Ho; [|done].
    apply IH in Hok as (Hsel & Hnd & Hseen).
    split; [|split].
    + constructor; [|done]. rewrite selected_findOption, Hq. simpl.
      rewrite Ho. by eexists.
    + rewrite fmap_cons. apply NoDup_cons. split; [|done].
      intros (b & Hb & Hin)%list_elem_of_fmap.
      rewrite Forall_forall in Hseen. apply (Hseen b Hin).
      rewrite <- Hb. apply elem_of_union_l. by apply elem_of_singleton.
    + constructor; [done|]. eapply Forall_impl; [exact Hseen|].
      intros b Hb Hin. apply Hb. by apply elem_of_union_r.
Qed.


(** ** Bounded catalogs: sums within the safe integers *)

Lemma boundedCatalog_selected (W P : Z) (qm : gmap string Question.t)
    (a : UserAnswer.t) (q : Question.t) (o : AnswerOption.t) (c : string)
    (p : Z) :
  boundedCatalog W P qm = true →
  selected qm a = Some (q, o) →
  AnswerOption.scores o !! c = Some p →
  Z.abs (Question.weight q) ≤ W ∧ Z.abs p ≤ P.
Proof.
  unfold boundedCatalog. rewrite selected_findOption.
  intros [_ Hcat]%andb_true_iff Hsel Hp.
  destruct (qm !! UserAnswer.questionId a) as [q'|] eqn:Hq; [|done].
  simpl in Hsel.
  destruct (findOption _ _) as [o'|] eqn:Ho; [|done].
  simpl in Hsel. injection Hsel as -> ->.
  apply findOption_Some in Ho as [Hin _].
  rewrite forallb_forall in Hcat.
  apply elem_of_map_to_list, list_elem_of_In, Hcat in Hq.
  apply andb_true_iff in Hq as [Hw Hopts]. simpl in Hw, Hopts.
  split; [lia|].
  rewrite forallb_forall in Hopts.
  apply list_elem_of_In, Hopts in Hin.
  unfold boundedOption in Hin. rewrite forallb_forall in Hin.
  apply elem_of_map_to_list, list_elem_of_In, Hin in Hp. simpl in Hp. lia.
Qed.

Lemma plainCategories_selected (qm : gmap string Question.t)
    (a : UserAnswer.t) (q : Question.t) (o : AnswerOption.t) (c : string)
    (p : Z) :
  plainCategories qm = true →
  selected qm a = Some (q, o) →
  AnswerOption.scores o !! c = Some p →
  plainId c = true.
Proof.
  unfold plainCategories. rewrite selected_findOption.
  intros Hcat Hsel Hp.
  destruct (qm !! UserAnswer.questionId a) as [q'|] eqn:Hq; [|done].
  simpl in Hsel.
  destruct (findOption _ _) as [o'|] eqn:Ho; [|done].
  simpl in Hsel. injection Hsel as -> ->.
  apply findOption_Some in Ho as [Hin _].
  rewrite forallb_forall in Hcat.
  apply elem_of_map_to_list, list_elem_of_In, Hcat in Hq. simpl in Hq.
  rewrite forallb_forall in Hq.
  apply list_elem_of_In, Hq in Hin.
  unfold plainOption in Hin. rewrite forallb_forall in Hin.
  by apply elem_of_map_to_list, list_elem_of_In, Hin in Hp.
Qed.

(** Only plain category ids get an entry from a plain catalog. *)
Lemma plainCategories_appears (qm : gmap string Question.t) (c : string)
    (answers : list UserAnswer.t) :
  plainCategories qm = true → appears qm c answers = true → plainId c = true.
Proof.
  intros Hcat. induction answers as [|a answers IH]; [done|].
  rewrite appears_cons. intros [Ha|Hrest]%orb_true_iff; [|by apply IH].
  apply bool_decide_eq_true in Ha as [x Hx]. unfold contribution in Hx.
  destruct (selected qm a) as [[q o]|] eqn:Hsel; [|done]. simpl in Hx.
  destruct (AnswerOption.scores o !! c) as [p|] eqn:Hp; [|done].
  by eapply plainCategories_selected.
Qed.

Lemma boundedCatalog_nonneg (W P : Z) (qm : gmap string Question.t) :
  boundedCatalog W P qm = true → 0 ≤ W ∧ 0 ≤ P.
Proof.
  unfold boundedCatalog. intros [[HW HP]%andb_true_iff _]%andb_true_iff. lia.
Qed.

Lemma contribution_bounded (W P : Z) (qm : gmap string Question.t)
    (c : string) (a : UserAnswer.t) (x : Z) :
  boundedCatalog W P qm = true → contribution qm c a = Some x →
  Z.abs x ≤ W * P.
Proof.
  unfold contribution. intros Hcat Hx.
  destruct (selected qm a) as [[q o]|] eqn:Hsel; [|done]. simpl in Hx.
  destruct (AnswerOption.scores o !! c) as [p|] eqn:Hp; [|done].
  simpl in Hx. injection Hx as <-.
  destruct (boundedCatalog_selected _ _ _ _ _ _ _ _ Hcat Hsel Hp).
  rewrite Z.abs_mul. apply Z.mul_le_mono_nonneg; lia.
Qed.

(** Within the bound, every total is a safe integer. *)
Lemma total_bounded (W P : Z) (qm : gmap string Question.t) (c : string)
    (l : list UserAnswer.t) :
  boundedCatalog W P qm = true →
  Z.abs (total qm c l) ≤ W * P * Z.of_nat (length l).
Proof.
  intros Hcat. destruct (boundedCatalog_nonneg _ _ _ Hcat) as [HW HP].
  induction l as [|a l IH]; [simpl; unfold total; simpl; lia|].
  rewrite total_cons. cbn [length]. rewrite Nat2Z.inj_succ.
  assert (Z.abs (default 0 (contribution qm c a)) ≤ W * P) as Ha.
  { destruct (contribution qm c a) as [x|] eqn:Hx; simpl.
    - by eapply contribution_bounded.
    - apply Z.mul_nonneg_nonneg; lia. }
  lia.
Qed.

Lemma total_safe (W P : Z) (qm : gmap string Question.t) (c : string)
    (l : list UserAnswer.t) (k : nat) :
  boundedCatalog W P qm = true → safeSums W P l →
  Z.abs (total qm c (take k l)) ≤ MAX_SAFE_INTEGER.
Proof.
  intros Hcat Hsafe. destruct (boundedCatalog_nonneg _ _ _ Hcat) as [HW HP].
  pose proof (total_bounded W P qm c (take k l) Hcat) as Hb.
  unfold safeSums in Hsafe.
  assert (Z.of_nat (length (take k l)) ≤ Z.of_nat (length l)).
  { rewrite length_take. lia. }
  assert (0 ≤ W * P) by (apply Z.mul_nonneg_nonneg; lia).
  nia.
Qed.

(** ** Scoring *)



Lemma appears_Permutation (qm : gmap string Question.t) (c : string)
    (l1 l2 : list UserAnswer.t) :
  l1 ≡ₚ l2 → appears qm c l1 = appears qm c l2.
Proof.
  induction 1 as [|a l1 l2 _ IH|a b l|l1 l2 l3 _ IH1 _ IH2];
    rewrite ?appears_cons; [done|by rewrite IH| |congruence].
  by rewrite !orb_assoc, (orb_comm (bool_decide _)).
Qed.

Lemma total_Permutation (qm : gmap string Question.t) (c : string)
    (l1 l2 : list UserAnswer.t) :
  l1 ≡ₚ l2 → total qm c l1 = total qm c l2.
Proof.
  induction 1 as [|a l1 l2 _ IH|a b l|l1 l2 l3 _ IH1 _ IH2];
    rewrite ?total_cons; lia.
Qed.



(** ** Validation, entry by entry *)

(** C7. validateAnswers scans the answers in submission order and fails at
    the first offending entry, with the exception that entry calls for
    (duplicate question, unknown question, unknown option, each citing the
    ids); when no entry offends it returns normally.  It is a function of
    its two arguments and returns nothing else.  The statement holds for
    every list, in particular for every non-empty one. *)
Theorem validateAnswers_first_offence (qm : gmap string Question.t)
    (answers : list UserAnswer.t) :
  match validateAnswers answers qm with
  | inr _ =>
    ∀ i a, answers !! i = Some a → offence qm (take i answers) a = None
  | inl e =>
    ∃ i a, answers !! i = Some a ∧
           offence qm (take i answers) a = Some e ∧
           ∀ j b, (j < i)%nat → answers !! j = Some b →
                  offence qm (take j answers) b = None
  end.
Proof.
  unfold validateAnswers.
  apply (validateAnswers_from_spec qm answers [] ∅).
  intros x. rewrite fmap_nil. split; [by intros ?%not_elem_of_empty|].
  by intros ?%not_elem_of_nil.
Qed.

Example validateAnswers_duplicate :
  validateAnswers duplicateAnswers (buildQuestionMap scenarioCatalog) =
  throw (BadRequestException "Duplicate answer for question: Q1").
Proof. vm_compute. reflexivity. Qed.

Example validateAnswers_unknown_question :
  validateAnswers [UserAnswer.mk "Q1" "optionA"; UserAnswer.mk "Q9" "optionA"]
                  (buildQuestionMap scenarioCatalog) =
  throw (BadRequestException "Invalid question ID: Q9").
Proof. vm_compute. reflexivity. Qed.

Example validateAnswers_unknown_option :
  validateAnswers [UserAnswer.mk "Q2" "optionB"; UserAnswer.mk "Q9" "optionA"]
                  (buildQuestionMap scenarioCatalog) =
  throw (BadRequestException "Invalid option ID: optionB for question: Q2").
Proof. vm_compute. reflexivity. Qed.

Example validateAnswers_partial_submission :
  validateAnswers [UserAnswer.mk "Q3" "optionA"]
                  (buildQuestionMap scenarioCatalog) = ret tt.
Proof. vm_compute. reflexivity. Qed.

(** ** Catalogs with non-negative weights and points *)

Lemma nonNegativeCatalog_selected (qm : gmap string Question.t)
    (a : UserAnswer.t) (q : Question.t) (o : AnswerOption.t) (c : string)
    (p : Z) :
  nonNegativeCatalog qm = true →
  selected qm a = Some (q, o) →
  AnswerOption.scores o !! c = Some p →
  0 ≤ Question.weight q ∧ 0 ≤ p.
Proof.
  unfold nonNegativeCatalog. rewrite selected_findOption.
  intros Hcat Hsel Hp.
  destruct (qm !! UserAnswer.questionId a) as [q'|] eqn:Hq; [|done].
  simpl in Hsel.
  destruct (findOption _ _) as [o'|] eqn:Ho; [|done].
  simpl in Hsel. injection Hsel as -> ->.
  apply findOption_Some in Ho as [Hin _].
  rewrite forallb_forall in Hcat.
  apply elem_of_map_to_list, list_elem_of_In, Hcat in Hq.
  apply andb_true_iff in Hq as [Hw Hopts]. simpl in Hw, Hopts.
  split; [lia|].
  rewrite forallb_forall in Hopts.
  apply list_elem_of_In, Hopts in Hin.
  unfold nonNegativeOption in Hin. rewrite forallb_forall in Hin.
  apply elem_of_map_to_list, list_elem_of_In, Hin in Hp. simpl in Hp. lia.
Qed.

Lemma contribution_nonneg (qm : gmap string Question.t) (c : string)
    (a : UserAnswer.t) (x : Z) :
  nonNegativeCatalog qm = true → contribution qm c a = Some x → 0 ≤ x.
Proof.
  unfold contribution. intros Hcat Hx.
  destruct (selected qm a) as [[q o]|] eqn:Hsel; [|done]. simpl in Hx.
  destruct (AnswerOption.scores o !! c) as [p|] eqn:Hp; [|done].
  simpl in Hx. injection Hx as <-.
  destruct (nonNegativeCatalog_selected _ _ _ _ _ _ Hcat Hsel Hp). lia.
Qed.

Lemma total_nonneg (qm : gmap string Question.t) (c : string)
    (l : list UserAnswer.t) :
  nonNegativeCatalog qm = true → 0 ≤ total qm c l.
Proof.
  intros Hcat. induction l as [|a l IH]; [done|]. rewrite total_cons.
  destruct (contribution qm c a) as [x|] eqn:Hx; simpl; [|lia].
  pose proof (contribution_nonneg _ _ _ _ Hcat Hx). lia.
Qed.

Lemma total_positive (qm : gmap string Question.t) (c : string)
    (l : list UserAnswer.t) :
  nonNegativeCatalog qm = true →
  1 ≤ total qm c l ↔
  Exists (λ a, ∃ x, contribution qm c a = Some x ∧ 1 ≤ x) l.
Proof.
  intros Hcat. induction l as [|a l IH].
  - split; [unfold total; simpl; lia|by intros ?%Exists_nil].
  - rewrite total_cons, Exists_cons, <- IH.
    pose proof (total_nonneg qm c l Hcat).
    destruct (contribution qm c a) as [x|] eqn:Hx; simpl.
    + pose proof (contribution_nonneg _ _ _ _ Hcat Hx).
      split.
      * intros Hsum. destruct (decide (1 ≤ x)); [left; eauto|right; lia].
      * intros [(x' & [= <-] & ?)|?]; lia.
    + split; [by right|]. by intros [(x' & [=] & _)|?].
Qed.

(** C8, as stated, fails: with non-negative points and a validated answer
    list the breakdown has an entry for a category whose value is 0. *)
Lemma calculateScores_zero_entry :
  let qm := buildQuestionMap zeroPointsCatalog in
  nonNegativeCatalog qm = true ∧
  validateAnswers zeroPointsAnswers qm = inr tt ∧
  calculateScores zeroPointsAnswers qm !! "architect" = Some 0 ∧
  ¬ (∀ c v, calculateScores zeroPointsAnswers qm !! c = Some v → 1 ≤ v).
Proof.
  intros qm.
  assert (H0 : calculateScores zeroPointsAnswers qm !! "architect" = Some 0)
    by (vm_compute; reflexivity).
  split; [vm_compute; reflexivity|].
  split; [vm_compute; reflexivity|].
  split; [exact H0|].
  intros Hall. specialize (Hall _ _ H0). lia.
Qed.

Lemma contribution_is_Some (qm : gmap string Question.t) (c : string)
    (a : UserAnswer.t) :
  is_Some (contribution qm c a) ↔
  ∃ q o p, selected qm a = Some (q, o) ∧ AnswerOption.scores o !! c = Some p.
Proof.
  unfold contribution. split.
  - intros [x Hx]. destruct (selected qm a) as [[q o]|]; [|done].
    simpl in Hx. destruct (AnswerOption.scores o !! c) as [p|] eqn:Hp; [|done].
    by exists q, o, p.
  - intros (q & o & p & -> & Hp). simpl. rewrite Hp. by eexists.
Qed.

Lemma appears_Exists (qm : gmap string Question.t) (c : string)
    (answers : list UserAnswer.t) :
  appears qm c answers = true ↔
  Exists (λ a, ∃ q o p, selected qm a = Some (q, o) ∧
                        AnswerOption.scores o !! c = Some p) answers.
Proof.
  induction answers as [|a answers IH].
  - split; [done|by intros ?%Exists_nil].
  - rewrite appears_cons, Exists_cons, orb_true_iff, IH.
    by rewrite bool_decide_eq_true, contribution_is_Some.
Qed.

(** C8, amended. On a catalog of the data model (plain category ids,
    non-negative weights within W and points within P) and for a validated
    answer list short enough for W × P × length to be a safe integer: every
    category with an entry in the breakdown is a key of the scoring map of
    at least one selected option, its value is a non-negative safe integer,
    and the value is at least 1 exactly when some answer contributes
    weight × points ≥ 1 to it; and every category that is a key of the
    scoring map of a selected option has an entry, whose value is 0 when all
    its products are 0. *)
Theorem calculateScores_entries (qm : gmap string Question.t)
    (answers : list UserAnswer.t) (category : string) (W P : Z) :
  nonNegativeCatalog qm = true →
  plainCategories qm = true →
  boundedCatalog W P qm = true →
  safeSums W P answers →
  validateAnswers answers qm = inr tt →
  (∀ v, calculateScores answers qm !! category = Some v →
        plainId category = true ∧
        Exists (λ a, ∃ q o p, selected qm a = Some (q, o) ∧
                              AnswerOption.scores o !! category = Some p)
               answers ∧
        0 ≤ v ≤ MAX_SAFE_INTEGER ∧
        (1 ≤ v ↔
         Exists (λ a, ∃ x, contribution qm category a = Some x ∧ 1 ≤ x)
                answers)) ∧
  (Exists (λ a, ∃ q o p, selected qm a = Some (q, o) ∧
                         AnswerOption.scores o !! category = Some p) answers →
   ∃ v, calculateScores answers qm !! category = Some v ∧
        (Forall (λ a, ∀ x, contribution qm category a = Some x → x = 0)
                answers → v = 0)).
Proof.
  intros Hcat Hplain Hbound Hsafe _.
  pose proof (total_nonneg qm category answers Hcat) as Hnonneg.
  pose proof (total_positive qm category answers Hcat) as Hpos.
  pose proof (total_safe W P qm category answers (length answers)
                Hbound Hsafe) as Hmax.
  rewrite firstn_all in Hmax.
  pose proof (plainCategories_appears qm category answers Hplain) as Hid.
  rewrite calculateScores_lookup.
  destruct (appears qm category answers) eqn:Happ.
  - split.
    + intros v [= <-]. split; [by apply Hid|].
      split; [by apply appears_Exists|]. split; [lia|done].
    + intros _. eexists. split; [done|]. intros Hzero.
      destruct (decide (1 ≤ total qm category answers)) as [Hone|]; [|lia].
      apply Hpos, Exists_exists in Hone as (a & Ha & x & Hx & Hx1).
      rewrite Forall_forall in Hzero. specialize (Hzero a Ha x Hx). lia.
  - split; [done|]. intros Hex%appears_Exists. congruence.
Qed.

Lemma calculateScores_entries_witness :
  let qm := buildQuestionMap zeroPointsCatalog in
  (∀ v, calculateScores zeroPointsAnswers qm !! "architect" = Some v →
        plainId "architect" = true ∧
        Exists (λ a, ∃ q o p, selected qm a = Some (q, o) ∧
                              AnswerOption.scores o !! "architect" = Some p)
               zeroPointsAnswers ∧
        0 ≤ v ≤ MAX_SAFE_INTEGER ∧
        (1 ≤ v ↔
         Exists (λ a, ∃ x, contribution qm "architect" a = Some x ∧ 1 ≤ x)
                zeroPointsAnswers)) ∧
  (Exists (λ a, ∃ q o p, selected qm a = Some (q, o) ∧
                         AnswerOption.scores o !! "architect" = Some p)
          zeroPointsAnswers →
   ∃ v, calculateScores zeroPointsAnswers qm !! "architect" = Some v ∧
        (Forall (λ a, ∀ x, contribution qm "architect" a = Some x → x = 0)
                zeroPointsAnswers → v = 0)).
Proof.
  intros qm.
  apply (calculateScores_entries qm zeroPointsAnswers "architect" 4 2).
  - vm_compute. reflexivity.
  - vm_compute. reflexivity.
  - vm_compute. reflexivity.
  - vm_compute. discriminate.
  - vm_compute. reflexivity.
Defined.

(** ** Math.max, Object.keys, Object.values and sort *)

Lemma Math_max_Finite (m : Z) (l : list Z) :
  foldl (λ acc v, match acc with
                  | NegInfinity => Finite v
                  | Finite m => Finite (Z.max m v)
                  end) (Finite m) l = Finite (foldl Z.max m l).
Proof. revert m. induction l as [|x l IH]; intros m; [done|apply IH]. Qed.

Lemma foldl_Zmax_spec (l : list Z) :
  ∀ m : Z,
    (foldl Z.max m l = m ∨ foldl Z.max m l ∈ l) ∧
    m ≤ foldl Z.max m l ∧
    ∀ x, x ∈ l → x ≤ foldl Z.max m l.
Proof.
  induction l as [|y l IH]; intros m; cbn [foldl].
  - split; [by left|]. split; [lia|]. by intros x ?%not_elem_of_nil.
  - destruct (IH (Z.max m y)) as (Hin & Hge & Hall).
    split; [|split; [lia|]].
    + destruct Hin as [Heq|Hin]; [|right; by right].
      rewrite Heq.
      destruct (Z.max_spec m y) as [[_ ->]|[_ ->]]; [right; by left|by left].
    + intros x [->|Hx]%elem_of_cons; [lia|by apply Hall].
Qed.

Lemma Math_max_spec (l : list Z) (m : Z) :
  Math_max l = Finite m → m ∈ l ∧ ∀ x, x ∈ l → x ≤ m.
Proof.
  destruct l as [|y l]; [done|]. unfold Math_max. cbn [foldl].
  rewrite Math_max_Finite. intros [= <-].
  destruct (foldl_Zmax_spec l y) as (Hin & Hge & Hall).
  split.
  - destruct Hin as [->|Hin]; [by left|by right].
  - intros x [->|Hx]%elem_of_cons; [done|by apply Hall].
Qed.

Lemma Math_max_nonempty (l : list Z) :
  l ≠ [] → ∃ m, Math_max l = Finite m.
Proof.
  destruct l as [|y l]; [done|]. intros _. unfold Math_max. cbn [foldl].
  rewrite Math_max_Finite. by eexists.
Qed.

Lemma elem_of_Object_keys (o : gmap string Z) (k : string) :
  k ∈ Object_keys o ↔ is_Some (o !! k).
Proof.
  unfold Object_keys. rewrite list_elem_of_fmap. split.
  - intros ([k' v] & -> & Hin). apply elem_of_map_to_list in Hin. by eexists.
  - intros [v Hv]. exists (k, v). split; [done|]. by apply elem_of_map_to_list.
Qed.

Lemma elem_of_Object_values (o : gmap string Z) (v : Z) :
  v ∈ Object_values o ↔ ∃ k, o !! k = Some v.
Proof.
  unfold Object_values. rewrite list_elem_of_fmap. split.
  - intros ([k v'] & -> & Hin). apply elem_of_map_to_list in Hin. by eexists.
  - intros [k Hk]. exists (k, v). split; [done|]. by apply elem_of_map_to_list.
Qed.

Lemma Object_values_nonempty (o : gmap string Z) :
  o ≠ ∅ → Object_values o ≠ [].
Proof.
  intros Hne Hnil. apply Hne. apply map_to_list_empty_iff.
  unfold Object_values in Hnil. by apply fmap_nil_inv in Hnil.
Qed.

Lemma elem_of_filter_bool {A} (f : A → bool) (l : list A) (x : A) :
  x ∈ List.filter f l ↔ x ∈ l ∧ f x = true.
Proof. rewrite !list_elem_of_In. apply List.filter_In. Qed.

Lemma strictEq_true (v : option Z) (m : Z) :
  strictEq v (Finite m) = true ↔ v = Some m.
Proof.
  destruct v as [a|]; simpl; [|done].
  rewrite Z.eqb_eq. split; congruence.
Qed.

Lemma sortInsert_head (x : string) (l : list string) :
  head (sortInsert x l) =
  Some (match head l with
        | None => x
        | Some y => if String.leb x y then x else y
        end).
Proof. destruct l as [|y l]; simpl; [done|]. by destruct (String.leb x y). Qed.

Lemma leb_trans (a b c : string) :
  String.leb a b = true → String.leb b c = true → String.leb a c = true.
Proof.
  intros Hab Hbc. apply Is_true_true.
  apply Is_true_true in Hab, Hbc.
  exact (transitivity (R := String.le) Hab Hbc).
Qed.

Lemma leb_refl (a : string) : String.leb a a = true.
Proof. apply Is_true_true. exact (reflexivity (R := String.le) a). Qed.

Lemma Array_sort_head (l : list string) (w : string) :
  head (Array_sort l) = Some w →
  w ∈ l ∧ ∀ y, y ∈ l → String.leb w y = true.
Proof.
  revert w. induction l as [|x l IH]; intros w; [done|].
  cbn [Array_sort foldr]. fold (Array_sort l). rewrite sortInsert_head.
  destruct (head (Array_sort l)) as [y|] eqn:Hhead.
  - destruct (IH y eq_refl) as [Hin Hmin].
    destruct (String.leb x y) eqn:Hxy; intros [= <-].
    + split; [by left|]. intros z [->|Hz]%elem_of_cons; [apply leb_refl|].
      eapply leb_trans; [exact Hxy|by apply Hmin].
    + split; [by right|]. intros z [->|Hz]%elem_of_cons; [|by apply Hmin].
      destruct (String.leb_total x y) as [?|?]; congruence.
  - intros [= <-]. destruct l as [|z l].
    + split; [by left|]. intros z [->|?%not_elem_of_nil]%elem_of_cons; [|done].
      apply leb_refl.
    + cbn [Array_sort foldr] in Hhead. rewrite sortInsert_head in Hhead. done.
Qed.

Lemma Array_sort_nonempty (l : list string) :
  l ≠ [] → is_Some (head (Array_sort l)).
Proof.
  destruct l as [|x l]; [done|]. intros _. cbn [Array_sort foldr].
  rewrite sortInsert_head. by eexists.
Qed.

(** ** The tie-break contributions *)

Lemma raiseContribution_lookup (w : Z) (os m : gmap string Z) (k c : string) :
  raiseContribution w os m k !! c =
  if decide (k = c) then
    if falsy (os !! c) then m !! c
    else Some (Z.max (default 0 (m !! c)) (w * default 0 (os !! c)))
  else m !! c.
Proof.
  unfold raiseContribution. destruct (decide (k = c)) as [->|Hne].
  - destruct (falsy (os !! c)); [done|by rewrite lookup_insert_eq].
  - destruct (falsy (os !! k)); [done|by rewrite lookup_insert_ne].
Qed.

Lemma foldl_raiseContribution_lookup (w : Z) (os : gmap string Z)
    (P : list string) :
  ∀ (m : gmap string Z) (c : string),
    foldl (raiseContribution w os) m P !! c =
    if decide (c ∈ P) then
      if falsy (os !! c) then m !! c
      else Some (Z.max (default 0 (m !! c)) (w * default 0 (os !! c)))
    else m !! c.
Proof.
  induction P as [|k P IH]; intros m c; cbn [foldl].
  - by rewrite decide_False by apply not_elem_of_nil.
  - rewrite IH, raiseContribution_lookup.
    destruct (decide (k = c)) as [->|Hne].
    + rewrite (decide_True (P := c ∈ c :: P)) by (by left).
      destruct (falsy (os !! c)); [by destruct (decide (c ∈ P))|].
      destruct (decide (c ∈ P)); [|done]. simpl. f_equal. lia.
    + destruct (decide (c ∈ P)) as [Hin|Hnin].
      * by rewrite (decide_True (P := c ∈ k :: P)) by (by right).
      * rewrite (decide_False (P := c ∈ k :: P)); [done|].
        intros [->|?]%elem_of_cons; done.
Qed.

Lemma contributionsOfAnswer_lookup (P : list string)
    (qm : gmap string Question.t) (m : gmap string Z) (a : UserAnswer.t)
    (c : string) :
  contributionsOfAnswer P qm m a !! c =
  if decide (c ∈ P) then
    match counted qm c a with
    | Some x => Some (Z.max (default 0 (m !! c)) x)
    | None => m !! c
    end
  else m !! c.
Proof.
  unfold contributionsOfAnswer, counted. rewrite selected_findOption.
  destruct (qm !! UserAnswer.questionId a) as [q|]; simpl;
    [|by destruct (decide (c ∈ P))].
  destruct (findOption _ _) as [o|]; simpl; [|by destruct (decide (c ∈ P))].
  rewrite foldl_raiseContribution_lookup.
  destruct (decide (c ∈ P)); [|done].
  destruct (AnswerOption.scores o !! c) as [p|]; simpl; [|done].
  by destruct (p =? 0).
Qed.

Lemma foldl_contributionsOfAnswer_lookup (P : list string)
    (qm : gmap string Question.t) (answers : list UserAnswer.t) (c : string) :
  ∀ (m : gmap string Z) (v : Z),
    m !! c = Some v →
    foldl (contributionsOfAnswer P qm) m answers !! c =
    if decide (c ∈ P) then Some (raisedFrom qm c v answers) else Some v.
Proof.
  unfold raisedFrom.
  induction answers as [|a answers IH]; intros m v Hv; cbn [foldl].
  - by destruct (decide (c ∈ P)).
  - pose proof (contributionsOfAnswer_lookup P qm m a c) as Hstep.
    destruct (decide (c ∈ P)) as [Hin|Hnin].
    + destruct (counted qm c a) as [x|].
      * rewrite Hv in Hstep. simpl in Hstep. by rewrite (IH _ _ Hstep).
      * rewrite Hv in Hstep. by rewrite (IH _ _ Hstep).
    + rewrite Hv in Hstep. by rewrite (IH _ _ Hstep).
Qed.

Lemma foldl_contributionsOfAnswer_absent (P : list string)
    (qm : gmap string Question.t) (answers : list UserAnswer.t) (c : string) :
  c ∉ P →
  ∀ m : gmap string Z,
    foldl (contributionsOfAnswer P qm) m answers !! c = m !! c.
Proof.
  intros Hnin. induction answers as [|a answers IH]; intros m; cbn [foldl];
    [done|].
  rewrite IH, contributionsOfAnswer_lookup. by rewrite decide_False.
Qed.

Lemma initial_contributions_lookup (P : list string) (c : string) :
  ∀ m : gmap string Z,
    foldl (λ m personalityId, <[personalityId := 0]> m) m P !! c =
    if decide (c ∈ P) then Some 0 else m !! c.
Proof.
  induction P as [|k P IH]; intros m; cbn [foldl].
  - by rewrite decide_False by apply not_elem_of_nil.
  - rewrite IH. destruct (decide (c ∈ P)) as [Hin|Hnin].
    + by rewrite decide_True by (by right).
    + destruct (decide (k = c)) as [->|Hne].
      * rewrite lookup_insert_eq. by rewrite decide_True by (by left).
      * rewrite lookup_insert_ne by done. rewrite decide_False; [done|].
        intros [->|?]%elem_of_cons; done.
Qed.

Lemma calculateMaxContributions_lookup (P : list string)
    (answers : list UserAnswer.t) (qm : gmap string Question.t) (c : string) :
  calculateMaxContributions P answers qm !! c =
  if decide (c ∈ P) then Some (raisedFrom qm c 0 answers) else None.
Proof.
  unfold calculateMaxContributions.
  pose proof (initial_contributions_lookup P c ∅) as Hinit.
  destruct (decide (c ∈ P)) as [Hin|Hnin].
  - rewrite (foldl_contributionsOfAnswer_lookup P qm answers c _ 0 Hinit).
    by rewrite decide_True.
  - rewrite foldl_contributionsOfAnswer_absent by done.
    by rewrite Hinit, lookup_empty.
Qed.

Lemma counted_contribution (qm : gmap string Question.t) (c : string)
    (a : UserAnswer.t) :
  match contribution qm c a with
  | None => counted qm c a = None
  | Some x => counted qm c a = Some x ∨ (counted qm c a = None ∧ x = 0)
  end.
Proof.
  unfold counted, contribution.
  destruct (selected qm a) as [[q o]|]; simpl; [|done].
  destruct (AnswerOption.scores o !! c) as [p|]; simpl; [|done].
  destruct (Z.eqb_spec p 0) as [->|Hp]; [right; split; [done|lia]|by left].
Qed.

Lemma foldr_Zmax_ge (l : list Z) (start : Z) : start ≤ foldr Z.max start l.
Proof. induction l as [|y l IH]; simpl; lia. Qed.

Lemma foldr_Zmax_start (l : list Z) (start x : Z) :
  foldr Z.max (Z.max start x) l = Z.max x (foldr Z.max start l).
Proof. induction l as [|y l IH]; simpl; lia. Qed.

(** Skipping the entries with 0 points changes nothing: their product is 0,
    and the running maximum never falls below its start, which is 0. *)
Lemma raisedFrom_foldr (qm : gmap string Question.t) (c : string)
    (answers : list UserAnswer.t) :
  ∀ start : Z, 0 ≤ start →
    raisedFrom qm c start answers =
    foldr Z.max start (omap (contribution qm c) answers).
Proof.
  unfold raisedFrom.
  induction answers as [|a answers IH]; intros start Hstart; [done|].
  cbn [foldl omap list_omap].
  pose proof (counted_contribution qm c a) as Hcc.
  destruct (contribution qm c a) as [x|].
  - cbn [foldr]. destruct Hcc as [->|[-> ->]].
    + rewrite IH by lia. apply foldr_Zmax_start.
    + rewrite IH by done.
      pose proof (foldr_Zmax_ge (omap (contribution qm c) answers) start). lia.
  - rewrite Hcc. by apply IH.
Qed.

Lemma raisedFrom_clampedContribution (qm : gmap string Question.t)
    (c : string) (answers : list UserAnswer.t) :
  raisedFrom qm c 0 answers = clampedContribution qm c answers.
Proof. by apply raisedFrom_foldr. Qed.


(** ** The three-level cascade *)

Lemma cascadeWinner_unique (scores : gmap string Z) (measure : string → Z)
    (w1 w2 : string) :
  cascadeWinner scores measure w1 → cascadeWinner scores measure w2 → w1 = w2.
Proof.
  intros [Hc1 [Hone1|[Hf1 Hmin1]]] [Hc2 [Hone2|[Hf2 Hmin2]]].
  - symmetry. by apply Hone1.
  - symmetry. by apply Hone1.
  - by apply Hone2.
  - apply String.leb_antisym; [by apply Hmin1|by apply Hmin2].
Qed.

Lemma cascadeWinner_ext (scores : gmap string Z) (f g : string → Z)
    (w : string) :
  (∀ c, f c = g c) → cascadeWinner scores f w → cascadeWinner scores g w.
Proof.
  intros Hfg [Hc Hcases]. split; [done|].
  destruct Hcases as [Hone|[[_ Hmax] Hmin]]; [by left|right].
  split.
  - split; [done|]. intros c' Hc'. rewrite <- !Hfg. by apply Hmax.
  - intros c [Hcc Hcmax]. apply Hmin. split; [done|].
    intros c' Hc'. rewrite !Hfg. by apply Hcmax.
Qed.

Lemma topPersonalities_contender (scores : gmap string Z) (m : Z) (c : string) :
  Math_max (Object_values scores) = Finite m →
  c ∈ List.filter (λ id, strictEq (scores !! id) (Finite m)) (Object_keys scores)
  ↔ contender scores c.
Proof.
  intros [Hm Hmax]%Math_max_spec.
  apply elem_of_Object_values in Hm as [k Hk].
  rewrite elem_of_filter_bool, elem_of_Object_keys, strictEq_true. split.
  - intros [_ Hc]. exists m. split; [done|].
    intros c' v' Hv'. apply Hmax, elem_of_Object_values. by exists c'.
  - intros (v & Hv & Hall).
    assert (v = m) as ->.
    { apply Z.le_antisymm; [|by eapply Hall].
      apply Hmax, elem_of_Object_values. by exists c. }
    split; [by eexists|done].
Qed.

(** The cascade as the code runs it, for any non-empty breakdown and with
    the tie-break value the code computes. *)
Lemma resolveTopPersonality_cascade (scores : gmap string Z)
    (answers : list UserAnswer.t) (qm : gmap string Question.t) :
  scores ≠ ∅ →
  ∃ w, resolveTopPersonality scores answers qm = Some w ∧
       cascadeWinner scores (λ c, raisedFrom qm c 0 answers) w.
Proof.
  intros Hne. unfold resolveTopPersonality.
  destruct (Math_max_nonempty (Object_values scores)) as [m Hm];
    [by apply Object_values_nonempty|].
  rewrite Hm.
  pose proof (λ c, topPersonalities_contender scores m c Hm) as HT.
  set (T := List.filter _ (Object_keys scores)) in *.
  destruct (length T =? 1)%nat eqn:Hlen.
  - apply Nat.eqb_eq in Hlen.
    destruct T as [|w [|? ?]] eqn:HeqT; simpl in Hlen; try lia.
    exists w. split; [done|]. split; [apply HT; by left|].
    left. intros c Hc. apply HT in Hc. by apply list_elem_of_singleton in Hc.
  - assert (HTne : ∃ k, k ∈ T).
    { pose proof Hm as [Hin Hmax]%Math_max_spec.
      apply elem_of_Object_values in Hin as [k Hk]. exists k.
      apply HT. exists m. split; [done|]. intros c' v' Hv'.
      apply Hmax, elem_of_Object_values. by exists c'. }
    destruct HTne as [k0 Hk0].
    set (MC := calculateMaxContributions T answers qm).
    assert (HMC : ∀ c, MC !! c =
                       if decide (c ∈ T) then Some (raisedFrom qm c 0 answers)
                       else None)
      by (intros c; apply calculateMaxContributions_lookup).
    assert (HMCne : MC ≠ ∅).
    { intros Hempty. specialize (HMC k0).
      rewrite Hempty, lookup_empty, decide_True in HMC by done. done. }
    destruct (Math_max_nonempty (Object_values MC)) as [M HM];
      [by apply Object_values_nonempty|].
    rewrite HM. apply Math_max_spec in HM as [HMin HMmax].
    apply elem_of_Object_values in HMin as [kM HkM].
    assert (HW : ∀ c, c ∈ List.filter (λ id, strictEq (MC !! id) (Finite M)) T
                      ↔ c ∈ T ∧ raisedFrom qm c 0 answers = M).
    { intros c. rewrite elem_of_filter_bool, strictEq_true, HMC.
      split; intros [Hin Heq]; (split; [done|]).
      - rewrite decide_True in Heq by done. congruence.
      - rewrite decide_True by done. congruence. }
    assert (HkMW : kM ∈ T ∧ raisedFrom qm kM 0 answers = M).
    { rewrite HMC in HkM. destruct (decide (kM ∈ T)); [|done].
      split; [done|congruence]. }
    assert (Hle : ∀ c, c ∈ T → raisedFrom qm c 0 answers ≤ M).
    { intros c Hc. apply HMmax, elem_of_Object_values. exists c.
      rewrite HMC. by rewrite decide_True. }
    set (W := List.filter _ T) in *.
    destruct (Array_sort_nonempty W) as [w Hw].
    { intros HWnil. apply (proj2 (HW kM)) in HkMW. rewrite HWnil in HkMW.
      by apply not_elem_of_nil in HkMW. }
    exists w. split; [done|].
    apply Array_sort_head in Hw as [HwW Hmin].
    apply HW in HwW as [HwT HwM].
    split; [by apply HT|]. right. split.
    + split; [by apply HT|]. intros c' Hc'. rewrite HwM.
      by apply Hle, HT.
    + intros c [Hc Hcmax]. apply Hmin, HW. apply HT in Hc.
      split; [done|]. apply Z.le_antisymm; [by apply Hle|].
      destruct HkMW as [HkMT <-]. by apply Hcmax, HT.
Qed.

Example tie_winner :
  let qm := buildQuestionMap tieCatalog in
  calculateScores tieAnswers qm !! "alpha" = Some 12 ∧
  calculateScores tieAnswers qm !! "beta" = Some 12 ∧
  resolveTopPersonality (calculateScores tieAnswers qm) tieAnswers qm
  = Some "beta".
Proof. repeat split; vm_compute; reflexivity. Qed.

Example fullTie_winner :
  let qm := buildQuestionMap fullTieCatalog in
  resolveTopPersonality (calculateScores fullTieAnswers qm) fullTieAnswers qm
  = Some "alpha".
Proof. vm_compute. reflexivity. Qed.

(** Outside the data model, with negative points, the tie-break value of
    the code is not the largest product: both categories total -2, the
    largest products are -2 for "alpha" and -1 for "beta"; the code starts
    every contender at 0, finds both at 0 and returns "alpha". *)
Example negative_products_are_clamped :
  let qm := buildQuestionMap negativeCatalog in
  nonNegativeCatalog qm = false ∧
  largestContribution qm "alpha" tieAnswers = -2 ∧
  largestContribution qm "beta" tieAnswers = -1 ∧
  clampedContribution qm "alpha" tieAnswers = 0 ∧
  clampedContribution qm "beta" tieAnswers = 0 ∧
  resolveTopPersonality (calculateScores tieAnswers qm) tieAnswers qm
  = Some "alpha".
Proof. repeat split; vm_compute; reflexivity. Qed.



(** ** Submissions as steps of the store *)

(** submitQuiz, path by path. *)(** ** Submissions as steps of the store *)

(** submitQuiz, path by path. *)
Lemma submit_paths (db : Firestore) (s : Submission) :
  submit db s =
  match users db !! subUser s with
  | None => (throw (NotFoundException "User not found"), db)
  | Some u =>
    if User.hasCompletedQuiz u then
      (throw (ForbiddenException alreadyCompletedMessage), db)
    else
      match questions db with
      | [] => (throw (NotFoundException "No questions found in database"), db)
      | _ :: _ =>
        match validateAnswers (SubmitQuizDto.answers (subDto s))
                              (buildQuestionMap (questions db)) with
        | inl e => (throw e, db)
        | inr _ =>
          match QuizResult.topPersonality (resultOf db s) with
          | None => (throw (FirestoreInvalidValue "topPersonality"), db)
          | Some _ =>
            (inr (SubmitQuizResponse.mk (subToken s)
                    (QuizResult.topPersonality (resultOf db s))
                    (QuizResult.scores (resultOf db s))),
             mkFirestore (<[subUser s := completed u (subToken s)]> (users db))
                         (questions db)
                         (<[subToken s := resultOf db s]> (results db)))
          end
        end
      end
  end.
Proof.
  unfold submit, submitQuiz, hasCompletedQuiz, findById, getQuestions.
  destruct (users db !! subUser s) as [u|] eqn:Hu; [|done].
  destruct (User.hasCompletedQuiz u) eqn:Hflag; [done|].
  unfold ret at 1. cbv beta iota.
  destruct (questions db) as [|q qs] eqn:Hqs; [done|].
  unfold ret at 1. cbv beta iota.
  destruct (validateAnswers _ _) as [e|[]] eqn:Hvalid; [done|].
  unfold resultOf, saveResult. rewrite Hqs.
  cbn [QuizResult.topPersonality QuizResult.scores QuizResult.id].
  destruct (resolveTopPersonality _ _ _) as [w|] eqn:Hw; [|done].
  unfold ret at 1. cbv beta iota.
  unfold markQuizCompleted. cbn [users questions results]. rewrite Hu.
  unfold ret at 1. cbv beta iota. unfold completed. reflexivity.
Qed.

Lemma submitQuiz_cases (db : Firestore) (s : Submission) :
  (∃ e, submit db s = (inl e, db)) ∨
  (∃ u, users db !! subUser s = Some u ∧
        User.hasCompletedQuiz u = false ∧
        questions db ≠ [] ∧
        validateAnswers (SubmitQuizDto.answers (subDto s))
                        (buildQuestionMap (questions db)) = inr tt ∧
        submit db s =
        (inr (SubmitQuizResponse.mk (subToken s)
                (QuizResult.topPersonality (resultOf db s))
                (QuizResult.scores (resultOf db s))),
         mkFirestore (<[subUser s := completed u (subToken s)]> (users db))
                     (questions db)
                     (<[subToken s := resultOf db s]> (results db)))).
Proof.
  rewrite submit_paths.
  destruct (users db !! subUser s) as [u|] eqn:Hu; [|left; by eexists].
  destruct (User.hasCompletedQuiz u) eqn:Hflag; [left; by eexists|].
  destruct (questions db) as [|q qs] eqn:Hqs; [left; by eexists|].
  destruct (validateAnswers _ _) as [e|[]] eqn:Hvalid; [left; by eexists|].
  destruct (QuizResult.topPersonality _) as [w|] eqn:Hw; [|left; by eexists].
  right. exists u. by repeat split.
Qed.

(** A successful submission has a winner: saveResult let it through. *)
Lemma submit_ok_winner (db db' : Firestore) (s : Submission)
    (response : SubmitQuizResponse.t) :
  submit db s = (inr response, db') →
  is_Some (QuizResult.topPersonality (resultOf db s)).
Proof.
  rewrite submit_paths.
  destruct (users db !! subUser s) as [u|]; [|done].
  destruct (User.hasCompletedQuiz u); [done|].
  destruct (questions db) as [|q qs]; [done|].
  destruct (validateAnswers _ _) as [e|[]]; [done|].
  destruct (QuizResult.topPersonality _) as [w|]; [by eexists|done].
Qed.

Lemma submit_throw_unchanged (db : Firestore) (s : Submission)
    (e : HttpException) :
  (submit db s).1 = inl e → (submit db s).2 = db.
Proof.
  destruct (submitQuiz_cases db s) as [[e' ->]|(u & _ & _ & _ & _ & ->)];
    [done|]. simpl. done.
Qed.

Lemma submit_forbidden (db : Firestore) (s : Submission) (u : User.t) :
  users db !! subUser s = Some u → User.hasCompletedQuiz u = true →
  submit db s = (throw (ForbiddenException alreadyCompletedMessage), db).
Proof.
  intros Hu Hflag. unfold submit, submitQuiz, hasCompletedQuiz, findById.
  by rewrite Hu, Hflag.
Qed.

Lemma submit_keeps_flag (db : Firestore) (s : Submission) (uid : string)
    (u : User.t) :
  users db !! uid = Some u → User.hasCompletedQuiz u = true →
  ∃ u', users (submit db s).2 !! uid = Some u' ∧
        User.hasCompletedQuiz u' = true.
Proof.
  intros Hu Hflag.
  destruct (submitQuiz_cases db s) as [[e ->]|(v & Hv & _ & _ & _ & ->)];
    simpl; [by eexists|].
  destruct (decide (subUser s = uid)) as [<-|Hne].
  - rewrite lookup_insert_eq. by eexists.
  - rewrite lookup_insert_ne by done. by eexists.
Qed.

Lemma run_keeps_flag (calls : list Submission) :
  ∀ (db : Firestore) (uid : string) (u : User.t),
    users db !! uid = Some u → User.hasCompletedQuiz u = true →
    ∃ u', users (run db calls) !! uid = Some u' ∧
          User.hasCompletedQuiz u' = true.
Proof.
  induction calls as [|s calls IH]; intros db uid u Hu Hflag; [by eexists|].
  destruct (submit_keeps_flag db s uid u Hu Hflag) as (u' & Hu' & Hflag').
  exact (IH _ _ _ Hu' Hflag').
Qed.

Lemma submit_gateInvariant (db : Firestore) (s : Submission) :
  gateInvariant db → gateInvariant (submit db s).2.
Proof.
  intros [Hown Hone].
  destruct (submitQuiz_cases db s) as [[e ->]|(u & Hu & Hflag & _ & _ & ->)];
    [done|].
  assert (Hnone : ∀ tok r, results db !! tok = Some r →
                           QuizResult.userId r ≠ subUser s).
  { intros tok r Hr Heq. destruct (Hown _ _ Hr) as (u' & Hu' & Hflag').
    rewrite Heq, Hu in Hu'. congruence. }
  split; simpl.
  - intros tok r Hr. destruct (decide (subToken s = tok)) as [<-|Hne].
    + rewrite lookup_insert_eq in Hr. injection Hr as <-. simpl.
      rewrite lookup_insert_eq. by eexists.
    + rewrite lookup_insert_ne in Hr by done.
      destruct (Hown _ _ Hr) as (u' & Hu' & Hflag').
      destruct (decide (subUser s = QuizResult.userId r)) as [<-|Hne'].
      * rewrite lookup_insert_eq. by eexists.
      * rewrite lookup_insert_ne by done. by eexists.
  - intros tok tok' r r' Hr Hr' Heq.
    destruct (decide (subToken s = tok)) as [<-|Hne];
      destruct (decide (subToken s = tok')) as [<-|Hne']; [done| | |].
    + rewrite lookup_insert_eq in Hr. injection Hr as <-.
      rewrite lookup_insert_ne in Hr' by done.
      by destruct (Hnone _ _ Hr').
    + rewrite lookup_insert_eq in Hr'. injection Hr' as <-.
      rewrite lookup_insert_ne in Hr by done.
      by destruct (Hnone _ _ Hr).
    + rewrite lookup_insert_ne in Hr, Hr' by done. by eapply Hone.
Qed.

Lemma run_gateInvariant (calls : list Submission) :
  ∀ db : Firestore, gateInvariant db → gateInvariant (run db calls).
Proof.
  induction calls as [|s calls IH]; intros db Hinv; [done|].
  apply IH. by apply submit_gateInvariant.
Qed.

Lemma filter_at_most_one {A} (f : string * A → bool) (l : list (string * A)) :
  NoDup l.*1 →
  (∀ e e', e ∈ l → e' ∈ l → f e = true → f e' = true → e.1 = e'.1) →
  (length (List.filter f l) ≤ 1)%nat.
Proof.
  induction l as [|x l IH]; intros Hnd Hsame; [simpl; lia|].
  rewrite fmap_cons in Hnd. apply NoDup_cons in Hnd as [Hx Hnd].
  assert (IHl : (length (List.filter f l) ≤ 1)%nat).
  { apply IH; [done|]. intros e e' He He'. apply Hsame; by right. }
  simpl. destruct (f x) eqn:Hfx; [|done].
  assert (Hnil : List.filter f l = []).
  { destruct (List.filter f l) as [|y ys] eqn:Hfl; [done|exfalso].
    assert (Hy : y ∈ List.filter f l) by (rewrite Hfl; by left).
    apply elem_of_filter_bool in Hy as [Hyl Hfy].
    apply Hx. rewrite (Hsame x y); [|by left|by right|done|done].
    apply list_elem_of_fmap. by exists y. }
  rewrite Hnil. simpl. lia.
Qed.

Lemma gateInvariant_at_most_one (db : Firestore) (uid : string) :
  gateInvariant db → (length (resultsOfUser db uid) ≤ 1)%nat.
Proof.
  intros [_ Hone]. unfold resultsOfUser.
  apply filter_at_most_one; [apply NoDup_fst_map_to_list|].
  intros [tok r] [tok' r'] Hr%elem_of_map_to_list Hr'%elem_of_map_to_list.
  simpl. intros Hu%String.eqb_eq Hu'%String.eqb_eq.
  eapply Hone; [done|done|congruence].
Qed.

(** ** The single-attempt gate *)

Lemma empty_results_gateInvariant (db : Firestore) :
  results db = ∅ → gateInvariant db.
Proof.
  intros Hempty. split.
  - intros tok r Hr. by rewrite Hempty, lookup_empty in Hr.
  - intros tok tok' r r' Hr. by rewrite Hempty, lookup_empty in Hr.
Qed.

(** C3. In a sequential execution that starts with an empty result store:
    once a user's hasCompletedQuiz flag is true, every later submitQuiz call
    by that user throws the already-completed ForbiddenException and leaves
    the store as it was, whatever the submitted answers are; and at every
    point of the execution each user owns at most one stored Result. *)
Theorem single_attempt (db0 : Firestore) (calls : list Submission) :
  results db0 = ∅ →
  (∀ uid u, users (run db0 calls) !! uid = Some u →
            User.hasCompletedQuiz u = true →
            ∀ (later : list Submission) (s : Submission),
              subUser s = uid →
              submit (run (run db0 calls) later) s =
              (throw (ForbiddenException alreadyCompletedMessage),
               run (run db0 calls) later)) ∧
  (∀ uid, (length (resultsOfUser (run db0 calls) uid) ≤ 1)%nat).
Proof.
  intros Hempty. split.
  - intros uid u Hu Hflag later s <-.
    destruct (run_keeps_flag later _ _ _ Hu Hflag) as (u' & Hu' & Hflag').
    by eapply submit_forbidden.
  - intros uid. apply gateInvariant_at_most_one, run_gateInvariant.
    by apply empty_results_gateInvariant.
Qed.

Lemma single_attempt_witness :
  results freshStore = ∅ ∧
  submit (run freshStore [aliceSubmission]) aliceAgain =
  (throw (ForbiddenException alreadyCompletedMessage),
   run freshStore [aliceSubmission]) ∧
  (length (resultsOfUser (run freshStore [aliceSubmission]) "alice") ≤ 1)%nat.
Proof.
  split; [reflexivity|].
  destruct (single_attempt freshStore [aliceSubmission] eq_refl)
    as [Hgate Hone].
  split; [|apply Hone].
  apply (Hgate "alice" (completed (aliceUser false) "token-1")
               ltac:(vm_compute; reflexivity) eq_refl [] aliceAgain eq_refl).
Defined.

Example alice_has_one_result :
  (submit freshStore aliceSubmission).1 =
  ret (SubmitQuizResponse.mk "token-1" (Some "leader")
         (calculateScores scenarioAnswers (buildQuestionMap scenarioCatalog))) ∧
  length (resultsOfUser (run freshStore [aliceSubmission]) "alice") = 1%nat.
Proof. split; vm_compute; reflexivity. Qed.

(** ** Rejected submissions *)

(** C4. When the submitted answers fail validation, submitQuiz throws and
    returns the store unchanged: no Result is stored and the user's flag is
    not set.  With the gate open and a non-empty catalog, the exception is
    the validation error itself, so no score was computed. *)
Theorem rejected_submission_changes_nothing (db : Firestore)
    (dto : SubmitQuizDto.t) (userId token : string) (now : Z)
    (e : HttpException) :
  validateAnswers (SubmitQuizDto.answers dto)
                  (buildQuestionMap (questions db)) = inl e →
  (∃ e', submitQuiz db dto userId token now = (inl e', db)) ∧
  (hasCompletedQuiz db userId = inr false → questions db ≠ [] →
   submitQuiz db dto userId token now = (inl e, db)).
Proof.
  intros Hinvalid. split.
  - destruct (submitQuiz_cases db (mkSubmission dto userId token now))
      as [[e' He']|(u & _ & _ & _ & Hvalid & _)]; [by exists e'|].
    simpl in Hvalid. congruence.
  - intros Hgate Hcatalog. unfold submitQuiz, getQuestions.
    rewrite Hgate. destruct (questions db) as [|q qs] eqn:Hqs; [done|].
    unfold ret. cbv beta iota. by rewrite Hinvalid.
Qed.

Lemma rejected_submission_changes_nothing_witness :
  submitQuiz freshStore (SubmitQuizDto.mk duplicateAnswers) "alice" "token-1" 1000
  = (inl (BadRequestException "Duplicate answer for question: Q1"), freshStore).
Proof.
  apply (rejected_submission_changes_nothing freshStore
           (SubmitQuizDto.mk duplicateAnswers) "alice" "token-1" 1000
           (BadRequestException "Duplicate answer for question: Q1")).
  - vm_compute. reflexivity.
  - vm_compute. reflexivity.
  - discriminate.
Defined.

(** ** Empty submissions *)

Lemma validateAnswers_nil (qm : gmap string Question.t) :
  validateAnswers [] qm = inr tt.
Proof. reflexivity. Qed.

(** C6. A submission whose answer list has zero entries fails at the
    endpoint with the ArrayMinSize violation of the DTO ("At least one
    answer is required"), whoever submits it and whatever the store holds;
    the service is not called, so nothing is scored and the store is
    unchanged. *)
Theorem empty_submission_rejected (db : Firestore) (dto : SubmitQuizDto.t)
    (userId token : string) (now : Z) :
  length (SubmitQuizDto.answers dto) = 0%nat →
  QuizController_submitQuiz db dto userId token now =
  (throw (ValidationPipeException
            [ArrayMinSizeViolation "At least one answer is required"]),
   db).
Proof.
  destruct dto as [answers]. cbn [SubmitQuizDto.answers].
  intros Hlen. apply length_zero_iff_nil in Hlen. subst answers.
  unfold QuizController_submitQuiz, validateSubmitQuizDto.
  cbn [SubmitQuizDto.answers length Nat.ltb Nat.leb imap concat app].
  reflexivity.
Qed.

Lemma empty_submission_rejected_witness :
  QuizController_submitQuiz freshStore (SubmitQuizDto.mk []) "alice" "token-1" 1000
  = (throw (ValidationPipeException
              [ArrayMinSizeViolation "At least one answer is required"]),
     freshStore).
Proof.
  apply (empty_submission_rejected freshStore (SubmitQuizDto.mk [])
           "alice" "token-1" 1000).
  reflexivity.
Defined.

(** A well-formed, non-empty body reaches the service. *)
Example scenario_submission_reaches_service :
  QuizController_submitQuiz freshStore (SubmitQuizDto.mk scenarioAnswers)
                            "alice" "token-1" 1000 =
  submitQuiz freshStore (SubmitQuizDto.mk scenarioAnswers) "alice" "token-1" 1000.
Proof. reflexivity. Qed.

(** ** Determinism across users and runs *)

(** C9. For a fixed catalog and answer list, two submissions (by any two
    users whose gate is open, in any two stores holding that catalog, with
    any tokens and at any times) end the same way: the same exception, or
    the same ScoreBreakdown and the same winning category. *)
Theorem verdict_independent_of_user (db1 db2 : Firestore)
    (dto : SubmitQuizDto.t) (userId1 userId2 token1 token2 : string)
    (now1 now2 : Z) :
  questions db1 = questions db2 →
  hasCompletedQuiz db1 userId1 = inr false →
  hasCompletedQuiz db2 userId2 = inr false →
  verdict (submitQuiz db1 dto userId1 token1 now1).1 =
  verdict (submitQuiz db2 dto userId2 token2 now2).1.
Proof.
  intros Hcat Hgate1 Hgate2.
  assert (Hone : ∀ db uid tok now,
            hasCompletedQuiz db uid = inr false →
            verdict (submitQuiz db dto uid tok now).1 =
            match questions db with
            | [] => inl (NotFoundException "No questions found in database")
            | _ =>
              let qm := buildQuestionMap (questions db) in
              match validateAnswers (SubmitQuizDto.answers dto) qm with
              | inl e => inl e
              | inr _ =>
                let scores := calculateScores (SubmitQuizDto.answers dto) qm in
                match resolveTopPersonality scores
                        (SubmitQuizDto.answers dto) qm with
                | None => inl (FirestoreInvalidValue "topPersonality")
                | Some w => inr (scores, Some w)
                end
              end
            end).
  { intros db uid tok now Hgate.
    change (submitQuiz db dto uid tok now)
      with (submit db (mkSubmission dto uid tok now)).
    rewrite submit_paths. unfold resultOf.
    cbn [subDto subUser subToken subNow QuizResult.topPersonality
         QuizResult.scores].
    unfold hasCompletedQuiz, findById in Hgate.
    destruct (users db !! uid) as [u|]; [|done].
    destruct (User.hasCompletedQuiz u); [done|].
    destruct (questions db) as [|q qs]; [done|]. cbv zeta.
    destruct (validateAnswers _ _) as [e|[]]; [done|].
    by destruct (resolveTopPersonality _ _ _). }
  rewrite (Hone _ _ _ _ Hgate1), (Hone _ _ _ _ Hgate2). by rewrite Hcat.
Qed.

Lemma verdict_independent_of_user_witness :
  verdict (submitQuiz freshStore (SubmitQuizDto.mk scenarioAnswers)
                      "alice" "token-1" 1000).1 =
  verdict (submitQuiz otherStore (SubmitQuizDto.mk scenarioAnswers)
                      "bob" "token-9" 2000).1.
Proof.
  apply verdict_independent_of_user; vm_compute; reflexivity.
Defined.

(** ** A breakdown without categories *)

Lemma resolveTopPersonality_empty (answers : list UserAnswer.t)
    (qm : gmap string Question.t) :
  resolveTopPersonality ∅ answers qm = None.
Proof.
  unfold resolveTopPersonality, Object_keys, Object_values.
  rewrite map_to_list_empty. reflexivity.
Qed.

(** resolveTopPersonality returns a category exactly when the breakdown has
    one. *)
Lemma resolveTopPersonality_is_Some (answers : list UserAnswer.t)
    (qm : gmap string Question.t) :
  is_Some (resolveTopPersonality (calculateScores answers qm) answers qm) ↔
  calculateScores answers qm ≠ ∅.
Proof.
  split.
  - intros [w Hw] Hempty. rewrite Hempty in Hw.
    by rewrite resolveTopPersonality_empty in Hw.
  - intros Hne.
    destruct (resolveTopPersonality_cascade _ answers qm Hne) as (w & -> & _).
    by eexists.
Qed.

Lemma validateAnswers_empty_catalog (a : UserAnswer.t)
    (answers : list UserAnswer.t) :
  validateAnswers (a :: answers) (buildQuestionMap []) ≠ inr tt.
Proof.
  unfold validateAnswers, buildQuestionMap. cbn [validateAnswers_from foldl].
  rewrite decide_False by apply not_elem_of_empty.
  by rewrite lookup_empty.
Qed.

(** C10, as stated, fails: submitQuiz never creates a stored Result without
    a winning category.  On the valid input of the claim (one answer, its
    option with an empty scoring map) the breakdown is empty and
    resolveTopPersonality returns no category, but saveResult refuses the
    undefined field: submitQuiz throws, the result store stays empty and
    the flag stays unset.  No call of submitQuiz returns a response without
    a winner. *)
Lemma submitQuiz_stores_no_result_without_winner :
  validateAnswers silentAnswers (buildQuestionMap silentCatalog) = inr tt ∧
  calculateScores silentAnswers (buildQuestionMap silentCatalog) = ∅ ∧
  submitQuiz silentStore (SubmitQuizDto.mk silentAnswers) "alice" "token-1" 1000
  = (throw (FirestoreInvalidValue "topPersonality"), silentStore) ∧
  results silentStore = ∅ ∧
  ¬ ∃ db dto userId token now response db',
      submitQuiz db dto userId token now = (inr response, db') ∧
      SubmitQuizResponse.topPersonality response = None.
Proof.
  split; [vm_compute; reflexivity|].
  split; [vm_compute; reflexivity|].
  split; [vm_compute; reflexivity|].
  split; [reflexivity|].
  intros (db & dto & userId & token & now & response & db' & Hok & Hnone).
  change (submitQuiz db dto userId token now)
    with (submit db (mkSubmission dto userId token now)) in Hok.
  pose proof (submit_ok_winner _ _ _ _ Hok) as [w Hw].
  destruct (submitQuiz_cases db (mkSubmission dto userId token now))
    as [[e He]|(u & _ & _ & _ & _ & Hsucc)]; [by rewrite He in Hok|].
  rewrite Hsucc in Hok. injection Hok as <- _.
  change (QuizResult.topPersonality
            (resultOf db (mkSubmission dto userId token now)) = None) in Hnone.
  rewrite Hw in Hnone. discriminate Hnone.
Qed.

(** C10, amended. When a non-empty, validated answer list selects only
    options with an empty scoring map, the ScoreBreakdown is empty and
    resolveTopPersonality returns no category; submitQuiz (gate open) then
    throws the error of saveResult and leaves the store as it was: no
    Result is stored and the flag is not set.  A response of submitQuiz
    always names a winner.  For a catalog of plain category ids and a
    non-empty breakdown within the safe integers, resolveTopPersonality
    returns a category. *)
Theorem empty_breakdown_has_no_winner (db : Firestore)
    (dto : SubmitQuizDto.t) (userId token : string) (now : Z) :
  let answers := SubmitQuizDto.answers dto in
  let qm := buildQuestionMap (questions db) in
  answers ≠ [] →
  validateAnswers answers qm = inr tt →
  Forall (λ a, ∀ q o, selected qm a = Some (q, o) →
                      AnswerOption.scores o = ∅) answers →
  hasCompletedQuiz db userId = inr false →
  calculateScores answers qm = ∅ ∧
  resolveTopPersonality (calculateScores answers qm) answers qm = None ∧
  submitQuiz db dto userId token now =
  (throw (FirestoreInvalidValue "topPersonality"), db) ∧
  (∀ db0 dto0 userId0 token0 now0 response db',
     submitQuiz db0 dto0 userId0 token0 now0 = (inr response, db') →
     is_Some (SubmitQuizResponse.topPersonality response)) ∧
  (∀ (W P : Z) (others : list UserAnswer.t),
     plainCategories qm = true → boundedCatalog W P qm = true →
     safeSums W P others →
     calculateScores others qm ≠ ∅ →
     is_Some (resolveTopPersonality (calculateScores others qm) others qm)).
Proof.
  intros answers qm. subst answers qm. intros Hne Hvalid Hsilent Hgate.
  set (answers := SubmitQuizDto.answers dto) in *.
  set (qm := buildQuestionMap (questions db)) in *.
  assert (Hscores : calculateScores answers qm = ∅).
  { apply map_eq. intros c. rewrite calculateScores_lookup, lookup_empty.
    assert (Hno : appears qm c answers = false); [|by rewrite Hno].
    clear -Hsilent. induction Hsilent as [|a l Ha _ IH]; [done|].
    rewrite appears_cons, IH, orb_false_r. apply bool_decide_eq_false.
    unfold contribution. intros [x Hx].
    destruct (selected qm a) as [[q o]|]; [|done]. simpl in Hx.
    rewrite (Ha q o eq_refl), lookup_empty in Hx. done. }
  split; [done|]. rewrite Hscores.
  split; [apply resolveTopPersonality_empty|].
  split; [|split].
  - change (submitQuiz db dto userId token now)
      with (submit db (mkSubmission dto userId token now)).
    rewrite submit_paths. unfold resultOf.
    cbn [subDto subUser subToken subNow QuizResult.topPersonality].
    fold answers. fold qm.
    unfold hasCompletedQuiz, findById in Hgate.
    destruct (users db !! userId) as [u|]; [|done].
    destruct (User.hasCompletedQuiz u); [done|].
    destruct (questions db) as [|q qs] eqn:Heq.
    + destruct answers as [|a l] eqn:Ha; [done|]. subst qm.
      by destruct (validateAnswers_empty_catalog a l).
    + rewrite Hvalid, Hscores. by rewrite resolveTopPersonality_empty.
  - intros db0 dto0 userId0 token0 now0 response db' Hok.
    change (submitQuiz db0 dto0 userId0 token0 now0)
      with (submit db0 (mkSubmission dto0 userId0 token0 now0)) in Hok.
    pose proof (submit_ok_winner _ _ _ _ Hok) as Hw.
    destruct (submitQuiz_cases db0 (mkSubmission dto0 userId0 token0 now0))
      as [[e He]|(u & _ & _ & _ & _ & Hsucc)]; [by rewrite He in Hok|].
    rewrite Hsucc in Hok. by injection Hok as <- _.
  - intros W P others _ _ _ Hsne.
    destruct (resolveTopPersonality_cascade _ others qm Hsne) as (w & Hw & _).
    by exists w.
Qed.

Lemma empty_breakdown_has_no_winner_witness :
  silentAnswers ≠ [] ∧
  validateAnswers silentAnswers (buildQuestionMap silentCatalog) = inr tt ∧
  calculateScores silentAnswers (buildQuestionMap silentCatalog) = ∅ ∧
  resolveTopPersonality
    (calculateScores silentAnswers (buildQuestionMap silentCatalog))
    silentAnswers (buildQuestionMap silentCatalog) = None ∧
  submitQuiz silentStore (SubmitQuizDto.mk silentAnswers) "alice" "token-1" 1000
  = (throw (FirestoreInvalidValue "topPersonality"), silentStore).
Proof.
  assert (Hvalid : validateAnswers silentAnswers
                     (buildQuestionMap silentCatalog) = inr tt)
    by (vm_compute; reflexivity).
  split; [discriminate|]. split; [exact Hvalid|].
  destruct (empty_breakdown_has_no_winner silentStore
              (SubmitQuizDto.mk silentAnswers) "alice" "token-1" 1000)
    as (Hscores & Hnone & Hthrow & _).
  - discriminate.
  - exact Hvalid.
  - repeat constructor. intros q o Hsel. vm_compute in Hsel.
    injection Hsel as <- <-. reflexivity.
  - vm_compute. reflexivity.
  - split; [exact Hscores|]. split; [exact Hnone|exact Hthrow].
Defined.

(** * Further properties of the service *)

(** ** Which submissions validateAnswers accepts *)

Lemma validateAnswers_from_accepts (qm : gmap string Question.t) :
  ∀ (answers : list UserAnswer.t) (seen : gset string),
    NoDup (UserAnswer.questionId <$> answers) →
    Forall (λ a, is_Some (selected qm a)) answers →
    Forall (λ a, UserAnswer.questionId a ∉ seen) answers →
    validateAnswers_from seen answers qm = inr tt.
Proof.
  induction answers as [|a answers IH]; intros seen Hnd Hsel Hseen; [done|].
  rewrite fmap_cons in Hnd. apply NoDup_cons in Hnd as [Hfresh Hnd].
  apply Forall_cons in Hsel as [[[q o] Ha] Hsel].
  apply Forall_cons in Hseen as [Hnew Hseen].
  cbn [validateAnswers_from]. rewrite decide_False by done.
  rewrite selected_findOption in Ha.
  destruct (qm !! UserAnswer.questionId a) as [q'|]; [|done]. simpl in Ha.
  destruct (findOption _ _) as [o'|]; [|done].
  apply IH; [done|done|].
  apply Forall_forall. intros b Hb [Heq%elem_of_singleton|Hin]%elem_of_union.
  - apply Hfresh. rewrite <- Heq. apply list_elem_of_fmap. by exists b.
  - rewrite Forall_forall in Hseen. by apply (Hseen b Hb).
Qed.

Lemma validateAnswers_accepts_iff (qm : gmap string Question.t)
    (answers : list UserAnswer.t) :
  validateAnswers answers qm = inr tt ↔
  NoDup (UserAnswer.questionId <$> answers) ∧
  Forall (λ a, is_Some (selected qm a)) answers.
Proof.
  split.
  - intros H. apply validateAnswers_from_ok in H as (? & ? & _). by split.
  - intros [Hnd Hsel]. apply validateAnswers_from_accepts; [done|done|].
    apply Forall_forall. intros b _. apply not_elem_of_empty.
Qed.

(** X1. Partial submissions in any order: when validateAnswers accepts a
    list, it accepts every list made of some of its answers, in whatever
    order (in particular every permutation and every sublist). *)
Theorem validateAnswers_accepts_selection (qm : gmap string Question.t)
    (answers chosen : list UserAnswer.t) :
  chosen ⊆+ answers →
  validateAnswers answers qm = inr tt →
  validateAnswers chosen qm = inr tt.
Proof.
  intros Hsub [Hnd Hsel]%validateAnswers_accepts_iff.
  apply validateAnswers_accepts_iff.
  apply submseteq_Permutation in Hsub as [rest Hperm].
  rewrite Hperm in Hsel. apply Forall_app in Hsel as [Hsel _].
  split; [|done].
  rewrite Hperm, fmap_app in Hnd. by apply NoDup_app in Hnd as [? _].
Qed.

Lemma validateAnswers_accepts_selection_witness :
  validateAnswers [UserAnswer.mk "Q3" "optionA"; UserAnswer.mk "Q2" "optionA"]
                  (buildQuestionMap scenarioCatalog) = inr tt.
Proof.
  apply (validateAnswers_accepts_selection _ scenarioAnswers).
  - unfold scenarioAnswers. apply submseteq_cons, submseteq_swap.
  - vm_compute. reflexivity.
Defined.

(** X2. An accepted submission answers each question at most once, so it has
    at most as many answers as the catalog has questions. *)
Theorem validateAnswers_at_most_one_per_question
    (qm : gmap string Question.t) (answers : list UserAnswer.t) :
  validateAnswers answers qm = inr tt →
  (length answers ≤ size qm)%nat.
Proof.
  intros [Hnd Hsel]%validateAnswers_accepts_iff.
  rewrite <- (length_fmap UserAnswer.questionId answers).
  rewrite <- (length_map_to_list qm), <- (length_fmap fst (map_to_list qm)).
  apply submseteq_length, NoDup_submseteq; [done|].
  intros qid (a & -> & Ha)%list_elem_of_fmap.
  rewrite Forall_forall in Hsel. destruct (Hsel a Ha) as [[q o] Hqo].
  rewrite selected_findOption in Hqo.
  destruct (qm !! UserAnswer.questionId a) as [q'|] eqn:Hq; [|done].
  apply list_elem_of_fmap. exists (UserAnswer.questionId a, q').
  split; [done|]. by apply elem_of_map_to_list.
Qed.

Lemma validateAnswers_at_most_one_per_question_witness :
  (length scenarioAnswers ≤ size (buildQuestionMap scenarioCatalog))%nat.
Proof.
  apply validateAnswers_at_most_one_per_question. vm_compute. reflexivity.
Defined.

(** ** How scores compose *)

Lemma appears_app (qm : gmap string Question.t) (c : string)
    (l1 l2 : list UserAnswer.t) :
  appears qm c (l1 ++ l2) = appears qm c l1 || appears qm c l2.
Proof. unfold appears. apply existsb_app. Qed.

Lemma total_app (qm : gmap string Question.t) (c : string)
    (l1 l2 : list UserAnswer.t) :
  total qm c (l1 ++ l2) = total qm c l1 + total qm c l2.
Proof.
  induction l1 as [|a l1 IH]; [done|].
  rewrite <- app_comm_cons, !total_cons, IH. lia.
Qed.

(** X3. On a catalog of the data model (plain category ids, weights within
    W and points within P in absolute value), and when W × P × the number
    of answers is a safe integer, scoring two batches of answers together
    gives, category by category, the sum of the two separate breakdowns; a
    category is present when it is present in either.  The totals of the
    batches and their sums are safe integers. *)
Theorem calculateScores_app (qm : gmap string Question.t)
    (answers1 answers2 : list UserAnswer.t) (W P : Z) :
  plainCategories qm = true →
  boundedCatalog W P qm = true →
  safeSums W P (answers1 ++ answers2) →
  calculateScores (answers1 ++ answers2) qm =
  union_with (λ x y, Some (x + y))
             (calculateScores answers1 qm) (calculateScores answers2 qm) ∧
  ∀ category : string,
    Z.abs (total qm category answers1) ≤ MAX_SAFE_INTEGER ∧
    Z.abs (total qm category answers2) ≤ MAX_SAFE_INTEGER ∧
    Z.abs (total qm category answers1 + total qm category answers2)
    ≤ MAX_SAFE_INTEGER.
Proof.
  intros _ Hcat Hsafe. split.
  - apply map_eq. intros c.
    rewrite lookup_union_with, !calculateScores_lookup, appears_app, total_app.
    pose proof (total_not_appears qm c answers1) as H1.
    pose proof (total_not_appears qm c answers2) as H2.
    destruct (appears qm c answers1), (appears qm c answers2); simpl;
      rewrite ?H1, ?H2 by done; f_equal; lia.
  - intros c.
    destruct (boundedCatalog_nonneg _ _ _ Hcat) as [HW HP].
    assert (0 ≤ W * P) as HWP by (apply Z.mul_nonneg_nonneg; lia).
    pose proof (total_bounded W P qm c answers1 Hcat) as Hb1.
    pose proof (total_bounded W P qm c answers2 Hcat) as Hb2.
    pose proof (total_bounded W P qm c (answers1 ++ answers2) Hcat) as Hb.
    rewrite total_app in Hb.
    unfold safeSums in Hsafe. rewrite length_app, Nat2Z.inj_add in *.
    split; [nia|]. split; [nia|lia].
Qed.

Lemma calculateScores_app_witness :
  let qm := buildQuestionMap scenarioCatalog in
  calculateScores ([UserAnswer.mk "Q1" "optionA"] ++
                   [UserAnswer.mk "Q2" "optionA"; UserAnswer.mk "Q3" "optionA"])
                  qm =
  union_with (λ x y, Some (x + y))
    (calculateScores [UserAnswer.mk "Q1" "optionA"] qm)
    (calculateScores [UserAnswer.mk "Q2" "optionA";
                      UserAnswer.mk "Q3" "optionA"] qm) ∧
  ∀ category : string,
    Z.abs (total qm category [UserAnswer.mk "Q1" "optionA"])
    ≤ MAX_SAFE_INTEGER ∧
    Z.abs (total qm category [UserAnswer.mk "Q2" "optionA";
                              UserAnswer.mk "Q3" "optionA"])
    ≤ MAX_SAFE_INTEGER ∧
    Z.abs (total qm category [UserAnswer.mk "Q1" "optionA"] +
           total qm category [UserAnswer.mk "Q2" "optionA";
                              UserAnswer.mk "Q3" "optionA"])
    ≤ MAX_SAFE_INTEGER.
Proof.
  intros qm. apply (calculateScores_app qm _ _ 5 3).
  - vm_compute. reflexivity.
  - vm_compute. reflexivity.
  - vm_compute. discriminate.
Defined.

(** X4. With non-negative weights and points, answering more questions
    never removes a category from the breakdown and never lowers its
    total. *)
Theorem calculateScores_monotone (qm : gmap string Question.t)
    (answers more : list UserAnswer.t) (category : string) (v : Z) :
  nonNegativeCatalog qm = true →
  calculateScores answers qm !! category = Some v →
  ∃ v', calculateScores (answers ++ more) qm !! category = Some v' ∧ v ≤ v'.
Proof.
  intros Hcat. rewrite !calculateScores_lookup, appears_app, total_app.
  destruct (appears qm category answers); [|done]. intros [= <-].
  eexists. split; [done|].
  pose proof (total_nonneg qm category more Hcat). lia.
Qed.

Lemma calculateScores_monotone_witness :
  ∃ v', calculateScores ([UserAnswer.mk "Q1" "optionA"] ++
                         [UserAnswer.mk "Q2" "optionA"])
                        (buildQuestionMap scenarioCatalog) !! "architect"
        = Some v' ∧ 12 ≤ v'.
Proof.
  apply calculateScores_monotone; vm_compute; reflexivity.
Defined.

Lemma contribution_unresolvable (qm : gmap string Question.t) (c : string)
    (a : UserAnswer.t) :
  resolvable qm a = false → contribution qm c a = None.
Proof.
  unfold resolvable, contribution. intros Hno%bool_decide_eq_false.
  destruct (selected qm a); [|done]. destruct Hno. by eexists.
Qed.

(** X5. calculateScores passes over an answer whose question or option does
    not exist: the breakdown of any list is the breakdown of its resolvable
    answers. *)
Theorem calculateScores_skips_unresolvable (qm : gmap string Question.t)
    (answers : list UserAnswer.t) :
  calculateScores answers qm =
  calculateScores (List.filter (resolvable qm) answers) qm.
Proof.
  apply map_eq. intros c. rewrite !calculateScores_lookup.
  assert (Happ : appears qm c (List.filter (resolvable qm) answers) =
                 appears qm c answers ∧
                 total qm c (List.filter (resolvable qm) answers) =
                 total qm c answers).
  { induction answers as [|a answers [IHa IHt]]; [done|].
    cbn [List.filter]. destruct (resolvable qm a) eqn:Hres.
    - by rewrite !appears_cons, !total_cons, IHa, IHt.
    - rewrite appears_cons, total_cons, IHa, IHt.
      rewrite (contribution_unresolvable _ _ _ Hres).
      rewrite bool_decide_eq_false_2 by (intros [? ?]; done).
      split; [done|]. simpl. lia. }
  destruct Happ as [-> ->]. done.
Qed.

(** ** The tie-break values *)





Lemma clampedContribution_Permutation (qm : gmap string Question.t)
    (c : string) (l1 l2 : list UserAnswer.t) :
  l1 ≡ₚ l2 → clampedContribution qm c l1 = clampedContribution qm c l2.
Proof.
  unfold clampedContribution.
  induction 1 as [|a l1 l2 _ IH|a b l|l1 l2 l3 _ IH1 _ IH2];
    cbn [omap list_omap]; [done| | |congruence].
  - destruct (contribution qm c a); cbn [foldr]; [by rewrite IH|done].
  - destruct (contribution qm c a), (contribution qm c b); cbn [foldr];
      try done. lia.
Qed.

(** X7. On a catalog of the data model (plain category ids, weights within
    W and points within P in absolute value), the order of the answers does
    not change the winner: two answer lists that are permutations of each
    other, short enough for W × P × length to be a safe integer, get the
    same result from resolveTopPersonality on their breakdowns. *)
Theorem resolveTopPersonality_Permutation (qm : gmap string Question.t)
    (answers1 answers2 : list UserAnswer.t) (W P : Z) :
  answers1 ≡ₚ answers2 →
  plainCategories qm = true →
  boundedCatalog W P qm = true →
  safeSums W P answers1 →
  resolveTopPersonality (calculateScores answers1 qm) answers1 qm =
  resolveTopPersonality (calculateScores answers2 qm) answers2 qm.
Proof.
  intros Hperm _ _ _.
  assert (Hscores : calculateScores answers1 qm = calculateScores answers2 qm).
  { apply map_eq. intros c. rewrite !calculateScores_lookup.
    by rewrite (appears_Permutation _ _ _ _ Hperm),
               (total_Permutation _ _ _ _ Hperm). }
  rewrite <- Hscores.
  destruct (decide (calculateScores answers1 qm = ∅)) as [Hempty|Hne].
  - rewrite Hempty. by rewrite !resolveTopPersonality_empty.
  - destruct (resolveTopPersonality_cascade _ answers1 qm Hne)
      as (w1 & -> & Hw1).
    destruct (resolveTopPersonality_cascade _ answers2 qm Hne)
      as (w2 & -> & Hw2).
    f_equal. eapply cascadeWinner_unique; [exact Hw1|].
    eapply cascadeWinner_ext; [|exact Hw2].
    intros c. rewrite !raisedFrom_clampedContribution.
    symmetry. by apply clampedContribution_Permutation.
Qed.

Lemma resolveTopPersonality_Permutation_witness :
  resolveTopPersonality
    (calculateScores tieAnswers (buildQuestionMap tieCatalog))
    tieAnswers (buildQuestionMap tieCatalog) =
  resolveTopPersonality
    (calculateScores (reverse tieAnswers) (buildQuestionMap tieCatalog))
    (reverse tieAnswers) (buildQuestionMap tieCatalog).
Proof.
  apply (resolveTopPersonality_Permutation _ _ _ 2 4).
  - symmetry. apply reverse_Permutation.
  - vm_compute. reflexivity.
  - vm_compute. reflexivity.
  - vm_compute. discriminate.
Defined.

(** ** What a submission does to the store *)

(** X8. On a catalog of the data model (plain category ids, weights and
    points within bounds that keep every sum a safe integer), submitQuiz
    succeeds exactly when the user exists with the flag unset, the catalog is
    not empty, validateAnswers accepts the answers and the breakdown has at
    least one category; the response then carries the drawn token, the
    breakdown of calculateScores and the winner of resolveTopPersonality. *)
Theorem submitQuiz_succeeds_iff (db : Firestore) (dto : SubmitQuizDto.t)
    (userId token : string) (now W P : Z) :
  let answers := SubmitQuizDto.answers dto in
  let qm := buildQuestionMap (questions db) in
  plainCategories qm = true →
  boundedCatalog W P qm = true →
  safeSums W P answers →
  ((∃ response, (submitQuiz db dto userId token now).1 = inr response) ↔
   hasCompletedQuiz db userId = inr false ∧
   questions db ≠ [] ∧
   validateAnswers answers qm = inr tt ∧
   calculateScores answers qm ≠ ∅) ∧
  (∀ response, (submitQuiz db dto userId token now).1 = inr response →
     response = SubmitQuizResponse.mk token
                  (resolveTopPersonality (calculateScores answers qm) answers qm)
                  (calculateScores answers qm)).
Proof.
  intros answers qm _ _ _. subst answers qm.
  change (submitQuiz db dto userId token now)
    with (submit db (mkSubmission dto userId token now)).
  rewrite submit_paths. unfold hasCompletedQuiz, findById, resultOf.
  cbn [subDto subUser subToken subNow QuizResult.topPersonality
       QuizResult.scores].
  rewrite <- resolveTopPersonality_is_Some.
  destruct (users db !! userId) as [u|];
    [|split; [split; [by intros [? [=]]|by intros [[=] _]]|by intros ? [=]]].
  destruct (User.hasCompletedQuiz u);
    [split; [split; [by intros [? [=]]|by intros [[=] _]]|by intros ? [=]]|].
  destruct (questions db) as [|q qs];
    [split; [split; [by intros [? [=]]|by intros (_ & ? & _)]|by intros ? [=]]|].
  destruct (validateAnswers _ _) as [e|[]];
    [split; [split; [by intros [? [=]]|by intros (_ & _ & [=] & _)]
            |by intros ? [=]]|].
  destruct (resolveTopPersonality _ _ _) as [w|].
  - split; [|by intros ? [= <-]]. split; [|by eexists].
    intros _. repeat split; [done|by eexists].
  - split; [|by intros ? [=]]. split; [by intros [? [=]]|].
    intros (_ & _ & _ & [? [=]]).
Qed.

Lemma submitQuiz_succeeds_iff_witness :
  ((∃ response,
      (submitQuiz freshStore (SubmitQuizDto.mk scenarioAnswers)
                  "alice" "token-1" 1700000000000).1 = inr response) ↔
   hasCompletedQuiz freshStore "alice" = inr false ∧
   questions freshStore ≠ [] ∧
   validateAnswers scenarioAnswers (buildQuestionMap (questions freshStore))
   = inr tt ∧
   calculateScores scenarioAnswers (buildQuestionMap (questions freshStore))
   ≠ ∅) ∧
  (∀ response,
     (submitQuiz freshStore (SubmitQuizDto.mk scenarioAnswers)
                 "alice" "token-1" 1700000000000).1 = inr response →
     response = SubmitQuizResponse.mk "token-1"
                  (resolveTopPersonality
                     (calculateScores scenarioAnswers
                        (buildQuestionMap (questions freshStore)))
                     scenarioAnswers (buildQuestionMap (questions freshStore)))
                  (calculateScores scenarioAnswers
                     (buildQuestionMap (questions freshStore)))).
Proof.
  apply (submitQuiz_succeeds_iff freshStore (SubmitQuizDto.mk scenarioAnswers)
           "alice" "token-1" 1700000000000 5 3).
  - vm_compute. reflexivity.
  - vm_compute. reflexivity.
  - vm_compute. discriminate.
Defined.

(** X9. A call of submitQuiz leaves the catalog, every other user's document
    and every Result stored under another token as they were; of the
    submitting user's document it can change only the flag and the token
    reference. *)
Theorem submitQuiz_frame (db : Firestore) (dto : SubmitQuizDto.t)
    (userId token : string) (now : Z) :
  let db' := (submitQuiz db dto userId token now).2 in
  questions db' = questions db ∧
  (∀ other, other ≠ userId → users db' !! other = users db !! other) ∧
  (∀ other, other ≠ token → results db' !! other = results db !! other) ∧
  (∀ u, users db !! userId = Some u →
     ∃ u', users db' !! userId = Some u' ∧
           User.id u' = User.id u ∧ User.email u' = User.email u ∧
           User.password u' = User.password u ∧ User.name u' = User.name u ∧
           User.createdAt u' = User.createdAt u).
Proof.
  intros db'. subst db'.
  pose proof (submitQuiz_cases db (mkSubmission dto userId token now)) as Hc.
  unfold submit in Hc. cbn [subDto subUser subToken subNow] in Hc.
  destruct Hc as [[e ->]|(u & Hu & _ & _ & _ & ->)]; cbn [snd].
  - split; [done|]. split; [done|]. split; [done|].
    intros u Hu. by exists u.
  - cbn [questions users results]. split; [done|].
    split; [intros other Hne; by rewrite lookup_insert_ne|].
    split; [intros other Hne; by rewrite lookup_insert_ne|].
    intros u0 Hu0. rewrite lookup_insert_eq. eexists. split; [done|].
    rewrite Hu in Hu0. injection Hu0 as <-. done.
Qed.

(** ** Fetching results *)

Lemma find_isTopPersonality (top : option string)
    (ps : list Personality.t) (p : Personality.t) :
  List.find (isTopPersonality top) ps = Some p →
  p ∈ ps ∧ top = Some (Personality.id p).
Proof.
  intros [Hin Htop]%List.find_some. split; [by apply list_elem_of_In|].
  unfold isTopPersonality in Htop. destruct top as [t|]; [|done].
  apply String.eqb_eq in Htop. by rewrite Htop.
Qed.

Lemma getResult_owner_data (db : Firestore)
    (personalities : list Personality.t) (token userId : string)
    (response : QuizResultResponse.t) :
  getResult db personalities token userId = inr response →
  ∃ r, results db !! token = Some r ∧ QuizResult.userId r = userId ∧
       QuizResultResponse.scores response = QuizResult.scores r.
Proof.
  unfold getResult, getPersonalities.
  destruct (results db !! token) as [r|]; [|done].
  destruct (String.eqb_spec (QuizResult.userId r) userId) as [Howner|];
    [|done]. cbn [negb].
  destruct personalities as [|p0 ps]; [done|]. unfold ret. cbv beta iota.
  destruct (List.find _ _) as [p|]; [|done].
  intros [= <-]. by exists r.
Qed.

(** X10. getResult hands a Result only to its owner, and what it hands out
    is the stored Result: the token, breakdown and date of the document
    under that token, with the personality of the collection whose id is the
    stored winner. *)
Theorem getResult_only_for_owner (db : Firestore)
    (personalities : list Personality.t) (token userId : string)
    (response : QuizResultResponse.t) :
  getResult db personalities token userId = inr response →
  ∃ r, results db !! token = Some r ∧
       QuizResult.userId r = userId ∧
       QuizResultResponse.id response = QuizResult.id r ∧
       QuizResultResponse.scores response = QuizResult.scores r ∧
       QuizResultResponse.createdAt response = QuizResult.createdAt r ∧
       QuizResultResponse.topPersonality response ∈ personalities ∧
       QuizResult.topPersonality r =
       Some (Personality.id (QuizResultResponse.topPersonality response)).
Proof.
  unfold getResult, getPersonalities.
  destruct (results db !! token) as [r|]; [|done].
  destruct (String.eqb_spec (QuizResult.userId r) userId) as [Howner|];
    [|done]. cbn [negb].
  destruct personalities as [|p0 ps]; [done|]. unfold ret. cbv beta iota.
  destruct (List.find _ _) as [p|] eqn:Hfind; [|done].
  intros [= <-]. apply find_isTopPersonality in Hfind as [Hin Htop].
  exists r. by repeat split.
Qed.

Lemma getResult_only_for_owner_witness :
  ∃ r, results aliceDone !! "token-1" = Some r ∧
       QuizResult.userId r = "alice" ∧
       "token-1" = QuizResult.id r ∧
       calculateScores scenarioAnswers (buildQuestionMap scenarioCatalog)
       = QuizResult.scores r ∧
       1000 = QuizResult.createdAt r ∧
       Personality.mk "leader" "The Leader" "decides" [] ∈ fourPersonalities ∧
       QuizResult.topPersonality r = Some "leader".
Proof.
  apply (getResult_only_for_owner aliceDone fourPersonalities "token-1" "alice"
           (QuizResultResponse.mk "token-1"
              (Personality.mk "leader" "The Leader" "decides" [])
              (calculateScores scenarioAnswers (buildQuestionMap scenarioCatalog))
              1000)).
  vm_compute. reflexivity.
Defined.

Example getResult_refuses_other_user :
  getResult aliceDone fourPersonalities "token-1" "bob" =
  throw (ForbiddenException "You can only access your own quiz results").
Proof. vm_compute. reflexivity. Qed.

Example getResult_unknown_token :
  getResult aliceDone fourPersonalities "token-7" "alice" =
  throw (NotFoundException "Result with token token-7 not found").
Proof. vm_compute. reflexivity. Qed.

(** X11. getMyResult answers only a user whose flag is set and whose
    document names a non-empty token, and only with a Result that user
    owns. *)
Theorem getMyResult_only_own_result (db : Firestore)
    (personalities : list Personality.t) (userId : string)
    (response : QuizResultResponse.t) :
  getMyResult db personalities userId = inr response →
  ∃ u t r, users db !! userId = Some u ∧
           User.hasCompletedQuiz u = true ∧
           User.quizToken u = Some t ∧ t ≠ "" ∧
           results db !! t = Some r ∧
           QuizResult.userId r = userId ∧
           QuizResultResponse.scores response = QuizResult.scores r.
Proof.
  unfold getMyResult, findById.
  destruct (users db !! userId) as [u|] eqn:Hu; [|done].
  destruct (User.hasCompletedQuiz u) eqn:Hflag; [|done]. cbn [negb orb].
  destruct (User.quizToken u) as [t|] eqn:Htoken; [|done].
  cbn [noToken default].
  destruct (String.eqb_spec t "") as [|Hne]; [done|].
  intros Hget.
  destruct (getResult_owner_data db personalities t userId response Hget)
    as (r & Hr & Howner & Hscores).
  exists u, t, r. by repeat split.
Qed.

Lemma getMyResult_only_own_result_witness :
  ∃ u t r, users aliceDone !! "alice" = Some u ∧
           User.hasCompletedQuiz u = true ∧
           User.quizToken u = Some t ∧ t ≠ "" ∧
           results aliceDone !! t = Some r ∧
           QuizResult.userId r = "alice" ∧
           calculateScores scenarioAnswers (buildQuestionMap scenarioCatalog)
           = QuizResult.scores r.
Proof.
  apply (getMyResult_only_own_result aliceDone fourPersonalities "alice"
           (QuizResultResponse.mk "token-1"
              (Personality.mk "leader" "The Leader" "decides" [])
              (calculateScores scenarioAnswers (buildQuestionMap scenarioCatalog))
              1000)).
  vm_compute. reflexivity.
Defined.

Example getMyResult_before_submitting :
  getMyResult freshStore fourPersonalities "alice" =
  throw (NotFoundException "You have not completed the quiz yet").
Proof. vm_compute. reflexivity. Qed.

Lemma getMyResult_linked (db : Firestore) (personalities : list Personality.t)
    (userId t : string) (u : User.t) (r : QuizResult.t) (p : Personality.t) :
  users db !! userId = Some u →
  User.hasCompletedQuiz u = true →
  User.quizToken u = Some t → t ≠ "" →
  results db !! t = Some r →
  QuizResult.userId r = userId →
  List.find (isTopPersonality (QuizResult.topPersonality r)) personalities
  = Some p →
  getMyResult db personalities userId =
  ret (QuizResultResponse.mk (QuizResult.id r) p (QuizResult.scores r)
                             (QuizResult.createdAt r)).
Proof.
  intros Hu Hflag Htoken Hne Hr Howner Hfind.
  unfold getMyResult, findById. rewrite Hu, Hflag, Htoken.
  cbn [negb orb noToken]. rewrite (proj2 (String.eqb_neq t "") Hne).
  change (default "" (Some t)) with t.
  unfold getResult. rewrite Hr, Howner, String.eqb_refl. cbn [negb].
  unfold getPersonalities.
  destruct personalities as [|p0 ps]; [done|]. unfold ret. cbv beta iota.
  by rewrite Hfind.
Qed.

(** X12. Read your own write: right after a successful submitQuiz (with a
    non-empty token), getMyResult of the same user returns the token, the
    breakdown and the date of that submission, with the personality whose id
    is the winner, when the personalities collection has one. *)
Theorem submitQuiz_then_getMyResult (db db' : Firestore)
    (dto : SubmitQuizDto.t) (userId token : string) (now : Z)
    (response : SubmitQuizResponse.t)
    (personalities : list Personality.t) (p : Personality.t) :
  submitQuiz db dto userId token now = (inr response, db') →
  token ≠ "" →
  List.find (isTopPersonality (SubmitQuizResponse.topPersonality response))
            personalities = Some p →
  getMyResult db' personalities userId =
  ret (QuizResultResponse.mk token p (SubmitQuizResponse.scores response) now).
Proof.
  intros Hsubmit Hne Hfind.
  pose proof (submitQuiz_cases db (mkSubmission dto userId token now)) as Hc.
  unfold submit in Hc. cbn [subDto subUser subToken subNow] in Hc.
  destruct Hc as [[e He]|(u & Hu & _ & _ & _ & Hok)]; [congruence|].
  rewrite Hsubmit in Hok. injection Hok as -> ->.
  cbn [SubmitQuizResponse.topPersonality SubmitQuizResponse.scores] in *.
  set (r := resultOf db (mkSubmission dto userId token now)) in *.
  apply (getMyResult_linked _ _ userId token (completed u token) r p).
  - cbn [users]. apply lookup_insert_eq.
  - done.
  - done.
  - done.
  - cbn [results]. apply lookup_insert_eq.
  - done.
  - done.
Qed.

Lemma submitQuiz_then_getMyResult_witness :
  getMyResult aliceDone fourPersonalities "alice" =
  ret (QuizResultResponse.mk "token-1"
         (Personality.mk "leader" "The Leader" "decides" [])
         (calculateScores scenarioAnswers (buildQuestionMap scenarioCatalog))
         1000).
Proof.
  apply (submitQuiz_then_getMyResult freshStore aliceDone
           (SubmitQuizDto.mk scenarioAnswers) "alice" "token-1" 1000
           (SubmitQuizResponse.mk "token-1" (Some "leader")
              (calculateScores scenarioAnswers
                 (buildQuestionMap scenarioCatalog)))).
  - vm_compute. reflexivity.
  - discriminate.
  - vm_compute. reflexivity.
Defined.

(** ** Registration *)

Lemma findByEmail_Some (db : Firestore) (email : string) (u : User.t) :
  findByEmail db email = Some u →
  User.email u = email ∧ ∃ uid, users db !! uid = Some u.
Proof.
  unfold findByEmail. intros [Hin Heq]%List.find_some.
  split; [by apply String.eqb_eq|].
  apply list_elem_of_In, list_elem_of_fmap in Hin as ([uid u'] & -> & Hin).
  exists uid. by apply elem_of_map_to_list.
Qed.

Lemma findByEmail_None (db : Firestore) (email : string) :
  findByEmail db email = None ↔
  ∀ uid u, users db !! uid = Some u → User.email u ≠ email.
Proof.
  unfold findByEmail. split.
  - intros Hnone uid u Hu Heq.
    assert (Hin : In u (map_to_list (users db)).*2).
    { apply list_elem_of_In, list_elem_of_fmap. exists (uid, u).
      split; [done|]. by apply elem_of_map_to_list. }
    pose proof (List.find_none _ _ Hnone u Hin) as Hno. simpl in Hno.
    apply String.eqb_neq in Hno. done.
  - intros Hall.
    destruct (List.find _ _) as [u|] eqn:Hfind; [|done].
    apply List.find_some in Hfind as [Hin Heq].
    apply list_elem_of_In, list_elem_of_fmap in Hin as ([uid u'] & -> & Hin).
    apply elem_of_map_to_list in Hin. apply String.eqb_eq in Heq.
    by destruct (Hall uid u' Hin).
Qed.

Lemma createUser_cases (db : Firestore) (email hashedPassword name : string)
    (userId : string) (now : Z) :
  ((∃ uid u, users db !! uid = Some u ∧ User.email u = email) ∧
   createUser db email hashedPassword name userId now =
   (inl (ConflictException "User with this email already exists"), db)) ∨
  ((∀ uid u, users db !! uid = Some u → User.email u ≠ email) ∧
   createUser db email hashedPassword name userId now =
   (inr (User.mk userId email hashedPassword name now false None),
    mkFirestore
      (<[userId := User.mk userId email hashedPassword name now false None]>
         (users db))
      (questions db) (results db))).
Proof.
  unfold createUser. destruct (findByEmail db email) as [u|] eqn:Hfind.
  - left. apply findByEmail_Some in Hfind as [Heq [uid Hu]].
    split; [by exists uid, u|done].
  - right. split; [|done]. by apply (proj1 (findByEmail_None db email)).
Qed.

(** X13. createUser throws the ConflictException exactly when some user
    document already has the email, and then it leaves the store unchanged;
    otherwise it stores the new user with the flag unset and no token. *)
Theorem createUser_conflict_iff (db : Firestore)
    (email hashedPassword name userId : string) (now : Z) :
  ((∃ e, (createUser db email hashedPassword name userId now).1 = inl e) ↔
   ∃ uid u, users db !! uid = Some u ∧ User.email u = email) ∧
  (∀ e, (createUser db email hashedPassword name userId now).1 = inl e →
        (createUser db email hashedPassword name userId now).2 = db) ∧
  (∀ user, (createUser db email hashedPassword name userId now).1 = inr user →
     User.hasCompletedQuiz user = false ∧ User.quizToken user = None ∧
     User.email user = email ∧
     users (createUser db email hashedPassword name userId now).2 !! userId
     = Some user).
Proof.
  destruct (createUser_cases db email hashedPassword name userId now)
    as [[Htaken ->]|[Hfree ->]]; cbn [fst snd].
  - split; [split; [done|by eexists]|]. split; [done|]. by intros ? [=].
  - split; [|split].
    + split; [by intros [? [=]]|].
      intros (uid & u & Hu & Heq). by destruct (Hfree uid u Hu).
    + by intros ? [=].
    + intros user [= <-]. cbn [users]. by rewrite lookup_insert_eq.
Qed.

(** X14. After a successful createUser with an id no user had, the new user
    is found by id and by email, may take the quiz (hasCompletedQuiz returns
    false), and every other user document is as before. *)
Theorem createUser_then_find (db db' : Firestore)
    (email hashedPassword name userId : string) (now : Z) (user : User.t) :
  users db !! userId = None →
  createUser db email hashedPassword name userId now = (inr user, db') →
  findById db' userId = Some user ∧
  findByEmail db' email = Some user ∧
  hasCompletedQuiz db' userId = inr false ∧
  (∀ other, other ≠ userId → findById db' other = findById db other).
Proof.
  intros Hfresh Hcreate.
  destruct (createUser_cases db email hashedPassword name userId now)
    as [[_ Hc]|[Hfree Hc]]; rewrite Hc in Hcreate; [done|].
  injection Hcreate as <- <-.
  set (user := User.mk userId email hashedPassword name now false None).
  assert (Hid : findById
                  (mkFirestore (<[userId := user]> (users db)) (questions db)
                               (results db)) userId = Some user).
  { unfold findById. cbn [users]. apply lookup_insert_eq. }
  split; [done|]. split; [|split].
  - destruct (findByEmail _ email) as [u|] eqn:Hfind.
    + apply findByEmail_Some in Hfind as [Heq [uid Hu]]. cbn [users] in Hu.
      destruct (decide (userId = uid)) as [<-|Hne].
      * rewrite lookup_insert_eq in Hu. by injection Hu as <-.
      * rewrite lookup_insert_ne in Hu by done. by destruct (Hfree uid u Hu).
    + rewrite findByEmail_None in Hfind.
      by destruct (Hfind userId user Hid).
  - unfold hasCompletedQuiz. by rewrite Hid.
  - intros other Hne. unfold findById. cbn [users].
    by rewrite lookup_insert_ne.
Qed.

Lemma createUser_then_find_witness :
  findById (register emptyStore aliceRegistration).2 "alice"
  = Some (aliceUser false) ∧
  findByEmail (register emptyStore aliceRegistration).2 "alice@example.org"
  = Some (aliceUser false) ∧
  hasCompletedQuiz (register emptyStore aliceRegistration).2 "alice"
  = inr false ∧
  (∀ other, other ≠ "alice" →
     findById (register emptyStore aliceRegistration).2 other
     = findById emptyStore other).
Proof.
  apply (createUser_then_find emptyStore _ "alice@example.org" "hash" "Alice"
           "alice" 0 (aliceUser false)).
  - reflexivity.
  - vm_compute. reflexivity.
Defined.

(** ** Executions with registrations and submissions *)

Lemma step_register_cases (db : Firestore) (r : Registration) :
  step db (RegisterCall r) = db ∨
  ((∀ uid u, users db !! uid = Some u → User.email u ≠ regEmail r) ∧
   step db (RegisterCall r) =
   mkFirestore
     (<[regId r := User.mk (regId r) (regEmail r) (regHash r) (regName r)
                           (regNow r) false None]> (users db))
     (questions db) (results db)).
Proof.
  unfold step, register.
  destruct (createUser_cases db (regEmail r) (regHash r) (regName r)
                             (regId r) (regNow r)) as [[_ ->]|[Hfree ->]];
    [by left|by right].
Qed.

Lemma step_submit_cases (db : Firestore) (s : Submission) :
  step db (SubmitCall s) = db ∨
  (∃ u, users db !! subUser s = Some u ∧ User.hasCompletedQuiz u = false ∧
        step db (SubmitCall s) =
        mkFirestore (<[subUser s := completed u (subToken s)]> (users db))
                    (questions db)
                    (<[subToken s := resultOf db s]> (results db))).
Proof.
  unfold step.
  destruct (submitQuiz_cases db s) as [[e ->]|(u & Hu & Hflag & _ & _ & ->)];
    [by left|right]. by exists u.
Qed.

Lemma step_uniqueEmails (db : Firestore) (c : Call) :
  uniqueEmails db → uniqueEmails (step db c).
Proof.
  intros Huniq. destruct c as [r|s].
  - destruct (step_register_cases db r) as [->|[Hfree ->]]; [done|].
    intros uid1 uid2 u1 u2. cbn [users].
    destruct (decide (regId r = uid1)) as [<-|Hne1];
      destruct (decide (regId r = uid2)) as [<-|Hne2]; [done| | |].
    + rewrite lookup_insert_eq, lookup_insert_ne by done.
      intros [= <-] Hu2 Heq. simpl in Heq. by destruct (Hfree uid2 u2 Hu2).
    + rewrite lookup_insert_eq, lookup_insert_ne by done.
      intros Hu1 [= <-] Heq. simpl in Heq. by destruct (Hfree uid1 u1 Hu1).
    + rewrite !lookup_insert_ne by done. apply Huniq.
  - destruct (step_submit_cases db s) as [->|(u & Hu & _ & ->)]; [done|].
    intros uid1 uid2 u1 u2. cbn [users].
    destruct (decide (subUser s = uid1)) as [<-|Hne1];
      destruct (decide (subUser s = uid2)) as [<-|Hne2]; [done| | |].
    + rewrite lookup_insert_eq, lookup_insert_ne by done.
      intros [= <-] Hu2 Heq. simpl in Heq. by eapply Huniq.
    + rewrite lookup_insert_eq, lookup_insert_ne by done.
      intros Hu1 [= <-] Heq. simpl in Heq. by eapply Huniq.
    + rewrite !lookup_insert_ne by done. apply Huniq.
Qed.

(** X15. No two accounts share an email: in every execution of registrations
    and submissions that starts from a store where emails are unique (for
    instance one without users), they stay unique, whatever ids and tokens
    are drawn. *)
Theorem execute_uniqueEmails (db0 : Firestore) (calls : list Call) :
  uniqueEmails db0 → uniqueEmails (execute db0 calls).
Proof.
  revert db0. induction calls as [|c calls IH]; intros db0 Huniq; [done|].
  apply IH. by apply step_uniqueEmails.
Qed.

Lemma execute_uniqueEmails_witness :
  uniqueEmails (execute emptyStore aliceTwice).
Proof.
  apply execute_uniqueEmails.
  intros uid1 uid2 u1 u2 Hu1. unfold emptyStore in Hu1. cbn [users] in Hu1.
  by rewrite lookup_empty in Hu1.
Defined.

Example second_registration_is_refused :
  (register (execute emptyStore [RegisterCall aliceRegistration])
            (mkRegistration "alice@example.org" "other" "Alice B" "alice-2" 5)).1
  = inl (ConflictException "User with this email already exists").
Proof. vm_compute. reflexivity. Qed.

Lemma step_linkInvariant (db : Firestore) (c : Call) (rest : list Call) :
  linkInvariant db → freshIds db (c :: rest) → linkInvariant (step db c).
Proof.
  intros Hlink [Hfresh _]. destruct c as [r|s].
  - destruct (step_register_cases db r) as [->|[_ ->]]; [done|].
    intros uid u. cbn [users results].
    destruct (decide (regId r = uid)) as [<-|Hne].
    + rewrite lookup_insert_eq. by intros [= <-].
    + rewrite lookup_insert_ne by done. apply Hlink.
  - destruct Hfresh as [Hnew Hne].
    destruct (step_submit_cases db s) as [->|(u0 & Hu0 & _ & ->)]; [done|].
    intros uid u. cbn [users results].
    destruct (decide (subUser s = uid)) as [<-|Hother].
    + rewrite lookup_insert_eq. intros [= <-] _.
      exists (subToken s), (resultOf db s).
      rewrite lookup_insert_eq. by repeat split.
    + rewrite lookup_insert_ne by done. intros Hu Hflag.
      destruct (Hlink uid u Hu Hflag) as (t & r & Ht & Htne & Hr & Hown & Hid).
      exists t, r. rewrite lookup_insert_ne by congruence. by repeat split.
Qed.

Lemma execute_linkInvariant (calls : list Call) :
  ∀ db : Firestore,
    linkInvariant db → freshIds db calls → linkInvariant (execute db calls).
Proof.
  induction calls as [|c calls IH]; intros db Hlink Hfresh; [done|].
  apply (IH (step db c)).
  - by eapply step_linkInvariant.
  - by destruct Hfresh.
Qed.

(** X16. Results stay retrievable: in an execution of registrations and
    submissions in which every drawn id and token is new (and tokens are
    non-empty), started when nobody has completed the quiz, every user whose
    flag is set afterwards has a stored Result of their own under the token
    in their document, and getMyResult returns it, enriched with the
    personality whose id is the stored winner when the collection has
    one. *)
Theorem execute_results_retrievable (db0 : Firestore) (calls : list Call)
    (personalities : list Personality.t) :
  (∀ uid u, users db0 !! uid = Some u → User.hasCompletedQuiz u = false) →
  freshIds db0 calls →
  ∀ uid u,
    users (execute db0 calls) !! uid = Some u →
    User.hasCompletedQuiz u = true →
    ∃ t r, User.quizToken u = Some t ∧
           results (execute db0 calls) !! t = Some r ∧
           QuizResult.userId r = uid ∧
           ∀ p, List.find (isTopPersonality (QuizResult.topPersonality r))
                          personalities = Some p →
                getMyResult (execute db0 calls) personalities uid =
                ret (QuizResultResponse.mk t p (QuizResult.scores r)
                                           (QuizResult.createdAt r)).
Proof.
  intros Hnone Hfresh uid u Hu Hflag.
  assert (Hlink : linkInvariant (execute db0 calls)).
  { apply execute_linkInvariant; [|done].
    intros uid' u' Hu' Hflag'. rewrite (Hnone _ _ Hu') in Hflag'. done. }
  destruct (Hlink uid u Hu Hflag) as (t & r & Ht & Htne & Hr & Hown & Hid).
  exists t, r. split; [done|]. split; [done|]. split; [done|].
  intros p Hfind. rewrite <- Hid at 1.
  by apply (getMyResult_linked _ _ uid t u r p).
Qed.

Lemma execute_results_retrievable_witness :
  ∃ t r, User.quizToken (completed (aliceUser false) "token-1") = Some t ∧
         results (execute emptyStore aliceJourney) !! t = Some r ∧
         QuizResult.userId r = "alice" ∧
         ∀ p, List.find (isTopPersonality (QuizResult.topPersonality r))
                        fourPersonalities = Some p →
              getMyResult (execute emptyStore aliceJourney) fourPersonalities
                          "alice" =
              ret (QuizResultResponse.mk t p (QuizResult.scores r)
                                         (QuizResult.createdAt r)).
Proof.
  apply (execute_results_retrievable emptyStore aliceJourney fourPersonalities).
  - intros uid u Hu. unfold emptyStore in Hu. cbn [users] in Hu.
    by rewrite lookup_empty in Hu.
  - cbn [aliceJourney freshIds]. split; [reflexivity|]. split; [|exact I].
    split; [vm_compute; reflexivity|discriminate].
  - vm_compute. reflexivity.
  - reflexivity.
Defined.

Lemma freshIds_app (calls later : list Call) :
  ∀ db : Firestore,
    freshIds db (calls ++ later) →
    freshIds db calls ∧ freshIds (execute db calls) later.
Proof.
  induction calls as [|c calls IH]; intros db Hfresh; [done|].
  destruct Hfresh as [Hc Hrest]. apply IH in Hrest as [H1 H2]. by repeat split.
Qed.

Lemma step_gateInvariant (db : Firestore) (c : Call) (rest : list Call) :
  gateInvariant db → freshIds db (c :: rest) → gateInvariant (step db c).
Proof.
  intros Hinv [Hfresh _]. destruct c as [r|s].
  - destruct (step_register_cases db r) as [->|[_ ->]]; [done|].
    destruct Hinv as [Hown Hone]. split; cbn [users results]; [|done].
    intros tok res Hres. destruct (Hown tok res Hres) as (u & Hu & Hflag).
    exists u. split; [|done]. rewrite lookup_insert_ne; [done|].
    intros Heq. rewrite <- Heq in Hu. congruence.
  - by apply submit_gateInvariant.
Qed.

Lemma execute_gateInvariant (calls : list Call) :
  ∀ db : Firestore,
    gateInvariant db → freshIds db calls → gateInvariant (execute db calls).
Proof.
  induction calls as [|c calls IH]; intros db Hinv Hfresh; [done|].
  apply (IH (step db c)); [by eapply step_gateInvariant|by destruct Hfresh].
Qed.

Lemma execute_keeps_flag (calls : list Call) :
  ∀ (db : Firestore) (uid : string) (u : User.t),
    freshIds db calls →
    users db !! uid = Some u → User.hasCompletedQuiz u = true →
    ∃ u', users (execute db calls) !! uid = Some u' ∧
          User.hasCompletedQuiz u' = true.
Proof.
  induction calls as [|c calls IH]; intros db uid u Hfresh Hu Hflag;
    [by eexists|].
  destruct Hfresh as [Hc Hrest].
  assert (Hstep : ∃ u', users (step db c) !! uid = Some u' ∧
                        User.hasCompletedQuiz u' = true).
  { destruct c as [r|s].
    - destruct (step_register_cases db r) as [->|[_ ->]]; [by eexists|].
      cbn [users]. exists u. split; [|done]. rewrite lookup_insert_ne; [done|].
      intros Heq. rewrite <- Heq in Hu. congruence.
    - by apply submit_keeps_flag with u. }
  destruct Hstep as (u' & Hu' & Hflag'). by apply (IH _ _ u').
Qed.

(** X17. The single attempt survives registrations: in an execution of
    registrations and submissions that starts without stored Results and in
    which every drawn id and token is new, each user owns at most one stored
    Result, and a user whose flag is set at some point is refused by every
    later submitQuiz call, with the store unchanged. *)
Theorem one_result_per_user_with_registrations (db0 : Firestore)
    (calls later : list Call) :
  results db0 = ∅ →
  freshIds db0 (calls ++ later) →
  (∀ uid,
     (length (resultsOfUser (execute db0 (calls ++ later)) uid) ≤ 1)%nat) ∧
  (∀ uid u, users (execute db0 calls) !! uid = Some u →
            User.hasCompletedQuiz u = true →
            ∀ s, subUser s = uid →
                 submit (execute db0 (calls ++ later)) s =
                 (throw (ForbiddenException alreadyCompletedMessage),
                  execute db0 (calls ++ later))).
Proof.
  intros Hempty Hfresh. split.
  - intros uid. apply gateInvariant_at_most_one, execute_gateInvariant;
      [by apply empty_results_gateInvariant|done].
  - intros uid u Hu Hflag s <-.
    apply freshIds_app in Hfresh as [_ Hlater].
    unfold execute. rewrite foldl_app. fold (execute db0 calls).
    fold (execute (execute db0 calls) later).
    destruct (execute_keeps_flag later _ _ _ Hlater Hu Hflag)
      as (u' & Hu' & Hflag').
    by eapply submit_forbidden.
Qed.

Lemma one_result_per_user_with_registrations_witness :
  (∀ uid,
     (length (resultsOfUser (execute emptyStore (aliceJourney ++ [])) uid)
      ≤ 1)%nat) ∧
  (∀ uid u, users (execute emptyStore aliceJourney) !! uid = Some u →
            User.hasCompletedQuiz u = true →
            ∀ s, subUser s = uid →
                 submit (execute emptyStore (aliceJourney ++ [])) s =
                 (throw (ForbiddenException alreadyCompletedMessage),
                  execute emptyStore (aliceJourney ++ []))).
Proof.
  apply one_result_per_user_with_registrations.
  - reflexivity.
  - cbn [aliceJourney app freshIds]. split; [reflexivity|]. split; [|exact I].
    split; [vm_compute; reflexivity|discriminate].
Defined.

(** A registration that draws an id already in use replaces that user's
    document, flag included, and the gate opens again. *)
Example colliding_id_reopens_gate :
  length (resultsOfUser (execute emptyStore collidingJourney) "alice") = 2%nat.
Proof. vm_compute. reflexivity. Qed.

(** ** The request body *)

(** A body with a blank optionId stops at the pipe. *)
Example blank_option_is_rejected :
  QuizController_submitQuiz freshStore
    (SubmitQuizDto.mk [UserAnswer.mk "Q1" "optionA"; UserAnswer.mk "Q2" ""])
    "alice" "token-1" 1000 =
  (throw (ValidationPipeException [IsNotEmptyViolation 1 "optionId"]),
   freshStore).
Proof. reflexivity. Qed.

(** ** The catalog as a map *)

Lemma buildQuestionMap_snoc (qs : list Question.t) (q : Question.t) :
  buildQuestionMap (qs ++ [q]) = <[Question.id q := q]> (buildQuestionMap qs).
Proof. unfold buildQuestionMap. by rewrite foldl_app. Qed.

(** X19. The question map holds exactly the catalog: a lookup returns a
    question of the catalog with that id, every id of the catalog is found,
    and when the ids of the catalog are pairwise distinct every question is
    found under its own id; the map has at most as many entries as the
    catalog has questions. *)
Theorem buildQuestionMap_lookup (qs : list Question.t) :
  (∀ id q, buildQuestionMap qs !! id = Some q →
           q ∈ qs ∧ Question.id q = id) ∧
  (∀ q, q ∈ qs → is_Some (buildQuestionMap qs !! Question.id q)) ∧
  (NoDup (Question.id <$> qs) →
   ∀ q, q ∈ qs → buildQuestionMap qs !! Question.id q = Some q) ∧
  (size (buildQuestionMap qs) ≤ length qs)%nat.
Proof.
  induction qs as [|q0 qs IH] using rev_ind.
  - split; [|split; [|split]].
    + intros id q Hq. unfold buildQuestionMap in Hq. simpl in Hq.
      by rewrite lookup_empty in Hq.
    + by intros q ?%not_elem_of_nil.
    + by intros _ q ?%not_elem_of_nil.
    + unfold buildQuestionMap. simpl. by rewrite map_size_empty.
  - destruct IH as (Hsound & Hfound & Hdistinct & Hsize).
    rewrite buildQuestionMap_snoc. split; [|split; [|split]].
    + intros id q. destruct (decide (Question.id q0 = id)) as [<-|Hne].
      * rewrite lookup_insert_eq. intros [= <-].
        split; [|done]. apply elem_of_app. right. by left.
      * rewrite lookup_insert_ne by done. intros Hq.
        destruct (Hsound id q Hq). split; [|done]. apply elem_of_app. by left.
    + intros q [Hin|Hin%list_elem_of_singleton]%elem_of_app.
      * destruct (decide (Question.id q0 = Question.id q)) as [->|Hne].
        -- rewrite lookup_insert_eq. by eexists.
        -- rewrite lookup_insert_ne by done. by apply Hfound.
      * subst q. rewrite lookup_insert_eq. by eexists.
    + rewrite fmap_app. intros (Hnd & Hdisj & _)%NoDup_app q
        [Hin|Hin%list_elem_of_singleton]%elem_of_app.
      * rewrite lookup_insert_ne; [by apply Hdistinct|].
        intros Heq. apply (Hdisj (Question.id q)).
        -- apply list_elem_of_fmap. by exists q.
        -- rewrite <- Heq. simpl. by left.
      * subst q. by rewrite lookup_insert_eq.
    + rewrite length_app, map_size_insert. cbn [length].
      destruct (buildQuestionMap qs !! Question.id q0); unfold id; lia.
Qed.

Example later_question_replaces_earlier :
  buildQuestionMap
    [ Question.mk "Q1" "old" 1 [] 1; Question.mk "Q1" "new" 2 [] 2 ] !! "Q1"
  = Some (Question.mk "Q1" "new" 2 [] 2).
Proof. vm_compute. reflexivity. Qed.

(** ** From registration to the result *)

Lemma submit_succeeds (db : Firestore) (s : Submission) :
  hasCompletedQuiz db (subUser s) = inr false →
  questions db ≠ [] →
  validateAnswers (SubmitQuizDto.answers (subDto s))
                  (buildQuestionMap (questions db)) = inr tt →
  calculateScores (SubmitQuizDto.answers (subDto s))
                  (buildQuestionMap (questions db)) ≠ ∅ →
  ∃ u, users db !! subUser s = Some u ∧
       submit db s =
       (inr (SubmitQuizResponse.mk (subToken s)
               (QuizResult.topPersonality (resultOf db s))
               (QuizResult.scores (resultOf db s))),
        mkFirestore (<[subUser s := completed u (subToken s)]> (users db))
                    (questions db)
                    (<[subToken s := resultOf db s]> (results db))).
Proof.
  intros Hgate Hqs Hvalid Hne.
  apply resolveTopPersonality_is_Some in Hne as [w Hw].
  rewrite submit_paths. unfold hasCompletedQuiz, findById in Hgate.
  destruct (users db !! subUser s) as [u|]; [|done].
  destruct (User.hasCompletedQuiz u); [done|].
  destruct (questions db) as [|q qs] eqn:Heq; [done|].
  rewrite <- Heq in *. rewrite Hvalid.
  unfold resultOf at 1. cbn [QuizResult.topPersonality]. rewrite Hw.
  by exists u.
Qed.

(** X20. The whole journey, on a catalog of the data model (plain category
    ids, weights and points within bounds that keep every sum a safe
    integer): a user who registers with an unused email and then submits
    answers that validateAnswers accepts against a non-empty catalog, and
    whose breakdown has at least one category, gets the response with the
    drawn token, and getMyResult then returns that token, breakdown and date
    with the personality whose id is the winner, when the personalities
    collection has one. *)
Theorem register_submit_fetch (db : Firestore)
    (email hashedPassword name userId : string) (registered : Z)
    (dto : SubmitQuizDto.t) (token : string) (now : Z)
    (personalities : list Personality.t) (W P : Z) :
  findByEmail db email = None →
  questions db ≠ [] →
  plainCategories (buildQuestionMap (questions db)) = true →
  boundedCatalog W P (buildQuestionMap (questions db)) = true →
  safeSums W P (SubmitQuizDto.answers dto) →
  validateAnswers (SubmitQuizDto.answers dto)
                  (buildQuestionMap (questions db)) = inr tt →
  calculateScores (SubmitQuizDto.answers dto)
                  (buildQuestionMap (questions db)) ≠ ∅ →
  token ≠ "" →
  let db1 := (createUser db email hashedPassword name userId registered).2 in
  let answers := SubmitQuizDto.answers dto in
  let qm := buildQuestionMap (questions db) in
  let scores := calculateScores answers qm in
  let winner := resolveTopPersonality scores answers qm in
  (submitQuiz db1 dto userId token now).1 =
  inr (SubmitQuizResponse.mk token winner scores) ∧
  ∀ p, List.find (isTopPersonality winner) personalities = Some p →
       getMyResult (submitQuiz db1 dto userId token now).2 personalities userId
       = ret (QuizResultResponse.mk token p scores now).
Proof.
  intros Hfree Hqs _ _ _ Hvalid Hscores Hne db1 answers qm scores winner.
  subst db1 answers qm scores winner.
  unfold createUser. rewrite Hfree. cbn [snd].
  set (user := User.mk userId email hashedPassword name registered false None).
  set (db1 := mkFirestore (<[userId := user]> (users db)) (questions db)
                          (results db)).
  assert (Hu1 : users db1 !! userId = Some user)
    by (cbn [db1 users]; apply lookup_insert_eq).
  destruct (submit_succeeds db1 (mkSubmission dto userId token now))
    as (u & Hu & Hok).
  - unfold hasCompletedQuiz, findById. cbn [subUser]. by rewrite Hu1.
  - done.
  - done.
  - done.
  - unfold submit, resultOf in Hok.
    cbn [subDto subUser subToken subNow QuizResult.topPersonality
         QuizResult.scores db1 questions] in Hok.
    rewrite Hok. cbn [fst snd]. split; [done|].
    intros p Hfind.
    eapply (getMyResult_linked _ _ userId token (completed u token)
              (QuizResult.mk token userId _ _ _ now) p).
    + cbn [users]. apply lookup_insert_eq.
    + done.
    + done.
    + done.
    + cbn [results]. apply lookup_insert_eq.
    + done.
    + exact Hfind.
Qed.

Lemma register_submit_fetch_witness :
  (submitQuiz (createUser emptyStore "alice@example.org" "hash" "Alice"
                          "alice" 0).2
              (SubmitQuizDto.mk scenarioAnswers) "alice" "token-1" 1000).1 =
  inr (SubmitQuizResponse.mk "token-1"
         (resolveTopPersonality
            (calculateScores scenarioAnswers (buildQuestionMap scenarioCatalog))
            scenarioAnswers (buildQuestionMap scenarioCatalog))
         (calculateScores scenarioAnswers (buildQuestionMap scenarioCatalog))) ∧
  ∀ p, List.find
         (isTopPersonality
            (resolveTopPersonality
               (calculateScores scenarioAnswers
                  (buildQuestionMap scenarioCatalog))
               scenarioAnswers (buildQuestionMap scenarioCatalog)))
         fourPersonalities = Some p →
       getMyResult
         (submitQuiz (createUser emptyStore "alice@example.org" "hash" "Alice"
                                 "alice" 0).2
                     (SubmitQuizDto.mk scenarioAnswers) "alice" "token-1" 1000).2
         fourPersonalities "alice"
       = ret (QuizResultResponse.mk "token-1" p
                (calculateScores scenarioAnswers
                   (buildQuestionMap scenarioCatalog)) 1000).
Proof.
  apply (register_submit_fetch emptyStore "alice@example.org" "hash" "Alice"
           "alice" 0 (SubmitQuizDto.mk scenarioAnswers) "token-1" 1000
           fourPersonalities 5 3).
  - reflexivity.
  - discriminate.
  - vm_compute. reflexivity.
  - vm_compute. reflexivity.
  - vm_compute. discriminate.
  - vm_compute. reflexivity.
  - intros Hempty. apply (f_equal (λ m, m !! "leader")) in Hempty.
    vm_compute in Hempty. discriminate.
  - discriminate.
Defined.
